(** * The diagram minimap: a shallow embedding of [lib/features/minimap/Minimap.js]

    The development follows the source file top to bottom: the numeric
    values of the language, the module constants, the geometric helpers
    ([fitAspectRatio], [map], [mapClickToDiagramPoint],
    [setViewboxCenteredAroundPoint]), the widget's methods ([_update],
    [addElement], [removeElement]) and the listeners its constructor binds.

    Modelling conventions.
    - In the model of the widget a JavaScript number is a rational
      extended with [NaN] and the two infinities: this carries which
      operations a listener applies to which values, and leaves rounding
      out.  What the numeric helpers compute in double precision is stated
      over the primitive binary64 floats, in the module [Binary64].
    - Objects that the code mutates through a reference (the rectangles
      handed out by [getBBox]) live in a store indexed by locations.
    - The canvas, the element registry and the browser layout are
      collaborators: the canvas is an interface ([CanvasAPI]), every call
      of one of its setters is recorded in the world's request log.  The
      notifications a collaborator sends reach the widget as inputs of
      their own.
    - The elements layer is a list of clones, each the copy of a tree of
      nodes; [getElementById] searches these trees in document order.
    - Creation and styling of the document nodes, and the cursor
      listeners, do not touch the state modelled here and are left out. *)

From Stdlib Require Import QArith Qminmax Lqa Ascii String List Bool ZArith Lia Floats.
From stdpp Require Import gmap strings list fin_maps.

(** ** Numbers *)

Module JSNumber.

Local Open Scope Q_scope.

Inductive number :=
  | NaN
  | PInf
  | NInf
  | Fin (q : Q).

(** Same mathematical value (rationals are compared up to [Qeq]). *)
Definition num_eq (a b : number) : Prop :=
  match a, b with
  | NaN, NaN | PInf, PInf | NInf, NInf => True
  | Fin p, Fin q => p == q
  | _, _ => False
  end.

Definition is_finite (a : number) : bool :=
  match a with Fin _ => true | _ => false end.

Definition nneg (a : number) : number :=
  match a with
  | NaN => NaN
  | PInf => NInf
  | NInf => PInf
  | Fin q => Fin (- q)
  end.

Definition nadd (a b : number) : number :=
  match a, b with
  | NaN, _ | _, NaN => NaN
  | PInf, NInf | NInf, PInf => NaN
  | PInf, _ | _, PInf => PInf
  | NInf, _ | _, NInf => NInf
  | Fin p, Fin q => Fin (p + q)
  end.

Definition nsub (a b : number) : number :=
  match a, b with
  | NaN, _ | _, NaN => NaN
  | PInf, PInf | NInf, NInf => NaN
  | PInf, _ | _, NInf => PInf
  | NInf, _ | _, PInf => NInf
  | Fin p, Fin q => Fin (p - q)
  end.

(** An infinity carrying the sign of [q]; [NaN] when [q] is zero. *)
Definition signed_inf (q : Q) (inf : number) : number :=
  match q ?= 0 with
  | Eq => NaN
  | Gt => inf
  | Lt => nneg inf
  end.

Definition nmul (a b : number) : number :=
  match a, b with
  | NaN, _ | _, NaN => NaN
  | Fin p, Fin q => Fin (p * q)
  | Fin p, inf | inf, Fin p => signed_inf p inf
  | PInf, PInf | NInf, NInf => PInf
  | PInf, NInf | NInf, PInf => NInf
  end.

Definition ndiv (a b : number) : number :=
  match a, b with
  | NaN, _ | _, NaN => NaN
  | Fin p, Fin q =>
      if Qeq_bool q 0 then signed_inf p PInf else Fin (p / q)
  | Fin _, _ => Fin 0
  | inf, Fin q => if Qle_bool 0 q then inf else nneg inf
  | _, _ => NaN
  end.

(** [a < b]; false as soon as one side is [NaN]. *)
Definition nlt (a b : number) : bool :=
  match a, b with
  | NaN, _ | _, NaN => false
  | _, NInf => false
  | NInf, _ => true
  | PInf, _ => false
  | _, PInf => true
  | Fin p, Fin q => negb (Qle_bool q p)
  end.

Definition ngt (a b : number) : bool := nlt b a.

(** [Math.max] and [Math.min] of two arguments. *)
Definition nmax (a b : number) : number :=
  match a, b with
  | NaN, _ | _, NaN => NaN
  | _, _ => if nlt a b then b else a
  end.

Definition nmin (a b : number) : number :=
  match a, b with
  | NaN, _ | _, NaN => NaN
  | _, _ => if nlt b a then b else a
  end.

End JSNumber.
Export JSNumber.

Declare Scope number_scope.
Delimit Scope number_scope with num.
Bind Scope number_scope with number.
Infix "+" := nadd : number_scope.
Infix "-" := nsub : number_scope.
Infix "*" := nmul : number_scope.
Infix "/" := ndiv : number_scope.
Infix "<?" := nlt : number_scope.
Infix ">?" := ngt : number_scope.
Infix "=n=" := num_eq (at level 70, no associativity).

Coercion Fin : Q >-> number.

(** ** Values and coercions

    The operands of the arithmetic in this file are numbers and strings
    (the dimension constants are CSS lengths).  [ToNumber] follows the
    language's grammar of numeric string literals. *)

Module JSValue.

Inductive value :=
  | VNum (n : number)
  | VStr (s : string).

Definition is_space (c : ascii) : bool :=
  let n := nat_of_ascii c in
  (Nat.leb 9 n && Nat.leb n 13) || Nat.eqb n 32.

Definition digit_of (c : ascii) : option Z :=
  let n := Z.of_nat (nat_of_ascii c) in
  if (48 <=? n)%Z && (n <=? 57)%Z then Some (n - 48)%Z else None.

Definition hex_digit_of (c : ascii) : option Z :=
  let n := Z.of_nat (nat_of_ascii c) in
  if (48 <=? n)%Z && (n <=? 57)%Z then Some (n - 48)%Z
  else if (65 <=? n)%Z && (n <=? 70)%Z then Some (n - 55)%Z
  else if (97 <=? n)%Z && (n <=? 102)%Z then Some (n - 87)%Z
  else None.

Definition below (radix : Z) (d : option Z) : option Z :=
  match d with
  | Some k => if (k <? radix)%Z then Some k else None
  | None => None
  end.

Fixpoint drop_spaces (l : list ascii) : list ascii :=
  match l with
  | c :: l' => if is_space c then drop_spaces l' else l
  | [] => []
  end.

Definition trim (l : list ascii) : list ascii :=
  rev (drop_spaces (rev (drop_spaces l))).

(** Longest prefix of digits: its value, its length, and the rest. *)
Fixpoint digits (dig : ascii -> option Z) (radix : Z) (acc : Z) (len : nat)
    (l : list ascii) : Z * nat * list ascii :=
  match l with
  | c :: l' =>
      match dig c with
      | Some d => digits dig radix (radix * acc + d)%Z (S len) l'
      | None => (acc, len, l)
      end
  | [] => (acc, len, [])
  end.

Definition pow10 (e : Z) : Q :=
  match e with
  | Z0 => 1%Q
  | Zpos p => inject_Z (10 ^ Zpos p)
  | Zneg p => (/ inject_Z (10 ^ Zpos p))%Q
  end.

(** The exponent part: [e], an optional sign, at least one digit, nothing
    after it.  An empty rest stands for exponent zero. *)
Definition exponent (l : list ascii) : option Z :=
  match l with
  | [] => Some 0%Z
  | c :: l' =>
      if (Ascii.eqb c "e" || Ascii.eqb c "E")%bool then
        let '(neg, l'') :=
          match l' with
          | s :: r => if Ascii.eqb s "-" then (true, r)
                      else if Ascii.eqb s "+" then (false, r) else (false, l')
          | [] => (false, l')
          end in
        match digits digit_of 10 0 0 l'' with
        | (v, S _, []) => Some (if neg then (- v)%Z else v)
        | _ => None
        end
      else None
  end.

Definition unsigned_decimal (l : list ascii) : option Q :=
  let '(ip, ilen, r) := digits digit_of 10 0 0 l in
  let '(fp, flen, r') :=
    match r with
    | c :: r0 => if Ascii.eqb c "." then digits digit_of 10 0 0 r0 else (0%Z, O, r)
    | [] => (0%Z, O, r)
    end in
  match ilen, flen with
  | O, O => None
  | _, _ =>
      match exponent r' with
      | Some e =>
          Some ((inject_Z ip + inject_Z fp * pow10 (- Z.of_nat flen)) * pow10 e)%Q
      | None => None
      end
  end.

Definition radix_literal (dig : ascii -> option Z) (radix : Z)
    (l : list ascii) : number :=
  match digits (fun c => below radix (dig c)) radix 0 0 l with
  | (v, S _, []) => Fin (inject_Z v)
  | _ => NaN
  end.

Definition signed_decimal (l : list ascii) : number :=
  let '(neg, body) :=
    match l with
    | c :: r => if Ascii.eqb c "-" then (true, r)
                else if Ascii.eqb c "+" then (false, r) else (false, l)
    | [] => (false, l)
    end in
  if String.eqb (string_of_list_ascii body) "Infinity"
  then (if neg then NInf else PInf)
  else match unsigned_decimal body with
       | Some q => Fin (if neg then (- q)%Q else q)
       | None => NaN
       end.

Definition string_to_number (s : string) : number :=
  match trim (list_ascii_of_string s) with
  | [] => Fin 0
  | c :: x :: r =>
      if Ascii.eqb c "0" && (Ascii.eqb x "x" || Ascii.eqb x "X")
      then radix_literal hex_digit_of 16 r
      else if Ascii.eqb c "0" && (Ascii.eqb x "o" || Ascii.eqb x "O")
      then radix_literal digit_of 8 r
      else if Ascii.eqb c "0" && (Ascii.eqb x "b" || Ascii.eqb x "B")
      then radix_literal digit_of 2 r
      else signed_decimal (c :: x :: r)
  | l => signed_decimal l
  end.

Definition ToNumber (v : value) : number :=
  match v with
  | VNum n => n
  | VStr s => string_to_number s
  end.

(** Code-unit order on strings, used when both operands are strings. *)
Definition string_lt (s t : string) : bool :=
  match String.compare s t with Lt => true | _ => false end.

(** [a < b] *)
Definition js_lt (a b : value) : bool :=
  match a, b with
  | VStr s, VStr t => string_lt s t
  | _, _ => nlt (ToNumber a) (ToNumber b)
  end.

(** [a - b] and [a / b]: both operands are converted to numbers. *)
Definition js_sub (a b : value) : value :=
  VNum (nsub (ToNumber a) (ToNumber b)).

Definition js_div (a b : value) : value :=
  VNum (ndiv (ToNumber a) (ToNumber b)).

End JSValue.
Export JSValue.

(** ** The widget *)

Module Minimap.

Local Open Scope number_scope.

(** *** Constants *)

Record Dimensions := { dim_width : value; dim_height : value }.

Definition MINIMAP_DIMENSIONS : Dimensions :=
  {| dim_width := VStr "320px"; dim_height := VStr "180px" |}.

Definition MIN_VIEWBOX_DIMENSIONS : Dimensions :=
  {| dim_width := dim_width MINIMAP_DIMENSIONS;
     dim_height := dim_height MINIMAP_DIMENSIONS |}.

Definition ZOOM_SMOOTHING : number := Fin 300.
Definition MIN_ZOOM : number := Fin 4.
Definition MAX_ZOOM : number := Fin (2 # 10).

(** *** Data *)

(** [{x, y, width, height}]: a bounding box, a viewbox, a client rectangle. *)
Record Rect := {
  rect_x : number;
  rect_y : number;
  rect_width : number;
  rect_height : number
}.

Inductive field := X | Y | Width | Height.

Definition get_field (f : field) (b : Rect) : number :=
  match f with
  | X => rect_x b
  | Y => rect_y b
  | Width => rect_width b
  | Height => rect_height b
  end.

Definition set_field (f : field) (v : number) (b : Rect) : Rect :=
  match f with
  | X => {| rect_x := v; rect_y := rect_y b;
            rect_width := rect_width b; rect_height := rect_height b |}
  | Y => {| rect_x := rect_x b; rect_y := v;
            rect_width := rect_width b; rect_height := rect_height b |}
  | Width => {| rect_x := rect_x b; rect_y := rect_y b;
                rect_width := v; rect_height := rect_height b |}
  | Height => {| rect_x := rect_x b; rect_y := rect_y b;
                 rect_width := rect_width b; rect_height := v |}
  end.

(** [assign(target, source)] on the fields of a rectangle: the source's
    own properties are copied over the target's, in order. *)
Definition assign_fields (source : list (field * number)) (b : Rect) : Rect :=
  fold_left (fun acc kv => set_field (fst kv) (snd kv) acc) source b.

Record Point := { point_x : number; point_y : number }.

(** A property that holds [undefined], [null] or an object. *)
Inductive nullable (A : Type) :=
  | Undefined
  | Null
  | Obj (a : A).
Arguments Undefined {A}.
Arguments Null {A}.
Arguments Obj {A} a.

Definition is_obj {A} (v : nullable A) : bool :=
  match v with Obj _ => true | _ => false end.

(** [this._state] *)
Record DragState := {
  isDragging : bool;
  initialDragPosition : nullable Point;
  cachedViewbox : nullable Rect
}.

(** The properties of a DOM event the listeners touch. *)
Record Event := {
  clientX : number;
  clientY : number;
  offsetX : number;
  offsetY : number;
  deltaY : number;
  propagationStopped : bool;
  defaultPrevented : bool
}.

Definition stopPropagation (e : Event) : Event :=
  {| clientX := clientX e; clientY := clientY e;
     offsetX := offsetX e; offsetY := offsetY e; deltaY := deltaY e;
     propagationStopped := true;
     defaultPrevented := defaultPrevented e |}.

(** A diagram element: shapes carry a position, connections waypoints. *)
Record Element := {
  el_id : string;
  el_x : number;
  el_y : number;
  el_waypoints : option (list Point)
}.

(** A node of the rendered graphics: its [class] and [id] attributes, the
    rest of its own markup, and its child nodes. *)
Inductive SvgNode := {
  class_attr : option string;
  id_attr : option string;
  markup : string;
  childNodes : list SvgNode
}.

(** The graphics of an element: the list of its child nodes. *)
Definition Gfx := list SvgNode.

(** A clone in the elements layer of the miniature: the deep copy of a
    visual, with the [id] and the [transform] that [addElement] sets on the
    root of the copy.  The [id] set on the root replaces the one the copy
    came with. *)
Record MirrorNode := {
  mirror_id : string;
  mirror_transform : option (number * number);
  mirror_visual : SvgNode
}.

(** **** Nodes by id

    [getElementById] answers with the first node of the tree, in document
    order, whose ID is the one asked for.  A position in the elements
    layer is a clone and the path of child positions that leads from the
    root of the clone to the node; the empty path is the clone itself. *)

(** Whether an [id] attribute makes [elementId] the ID of its node. *)
Definition has_id (elementId : string) (attr : option string) : bool :=
  match attr with
  | Some s => String.eqb s elementId
  | None => false
  end.

(** The first node with the ID in the subtree of [n], [n] included, as
    the path from [n]. *)
Fixpoint node_path (elementId : string) (n : SvgNode) : option (list nat) :=
  if has_id elementId (id_attr n) then Some []
  else (fix forest_path (l : list SvgNode) (k : nat) : option (list nat) :=
          match l with
          | [] => None
          | c :: l' =>
              match node_path elementId c with
              | Some p => Some (k :: p)
              | None => forest_path l' (S k)
              end
          end) (childNodes n) O.

(** The same search through siblings, the first of them at position [k]. *)
Fixpoint forest_path (elementId : string) (l : list SvgNode) (k : nat)
    : option (list nat) :=
  match l with
  | [] => None
  | c :: l' =>
      match node_path elementId c with
      | Some p => Some (k :: p)
      | None => forest_path elementId l' (S k)
      end
  end.

(** The search through the clones of the elements layer: the root of a
    clone comes before the nodes below it, a clone before the next. *)
Fixpoint layer_path (elementId : string) (nodes : list MirrorNode)
    : option (nat * list nat) :=
  match nodes with
  | [] => None
  | n :: nodes' =>
      if String.eqb (mirror_id n) elementId then Some (O, [])
      else match forest_path elementId (childNodes (mirror_visual n)) O with
           | Some p => Some (O, p)
           | None =>
               match layer_path elementId nodes' with
               | Some (k, p) => Some (S k, p)
               | None => None
               end
           end
  end.

(** The ids carried by the nodes of a subtree, root included, and by the
    nodes below the roots of the clones. *)
Fixpoint subtree_ids (n : SvgNode) : list string :=
  match id_attr n with Some s => [s] | None => [] end
  ++ flat_map subtree_ids (childNodes n).

Definition visual_ids (visual : SvgNode) : list string :=
  flat_map subtree_ids (childNodes visual).

Definition inner_ids (nodes : list MirrorNode) : list string :=
  flat_map (fun n => visual_ids (mirror_visual n)) nodes.

(** Taking the node at a path out of its parent, among siblings. *)
Fixpoint remove_at (p : list nat) (l : list SvgNode) : list SvgNode :=
  match p with
  | [] => l
  | [k] => delete k l
  | k :: p' =>
      alter (fun c => {| class_attr := class_attr c; id_attr := id_attr c;
                         markup := markup c;
                         childNodes := remove_at p' (childNodes c) |}) k l
  end.

(** [svgRemove(node)]: the node leaves its parent, with its subtree. *)
Definition svgRemove (node : nat * list nat) (nodes : list MirrorNode)
    : list MirrorNode :=
  match node with
  | (k, []) => delete k nodes
  | (k, p) =>
      alter (fun n =>
               {| mirror_id := mirror_id n;
                  mirror_transform := mirror_transform n;
                  mirror_visual :=
                    {| class_attr := class_attr (mirror_visual n);
                       id_attr := id_attr (mirror_visual n);
                       markup := markup (mirror_visual n);
                       childNodes :=
                         remove_at p (childNodes (mirror_visual n)) |} |})
            k nodes
  end.

(** The [viewBox] attribute: the four values the code joins with [", "]. *)
Record ViewBoxAttr := {
  vb_x : value;
  vb_y : value;
  vb_width : value;
  vb_height : value
}.

Definition loc := positive.

(** *** The canvas collaborator *)

Class CanvasAPI (C : Type) := {
  (** [canvas.getDefaultLayer().getBBox()] *)
  getBBox : C -> Rect;
  (** [canvas.viewbox()] and [canvas.viewbox(box)] *)
  get_viewbox : C -> Rect;
  set_viewbox : Rect -> C -> C;
  (** [canvas.zoom()] and [canvas.zoom(scale)] *)
  get_zoom : C -> number;
  set_zoom : number -> C -> C
}.

(** What the widget asked of the canvas. *)
Inductive Request :=
  | SetViewbox (box : Rect)
  | SetZoom (scale : number).

Section Widget.

Context {C : Type} {canvasAPI : CanvasAPI C}.

(** *** The world the widget runs in *)

Record World := {
  (** rectangles handed out by [getBBox], by reference *)
  heap : gmap loc Rect;
  (** the injected collaborators *)
  _canvas : C;
  _elementRegistry : gmap string Gfx;
  (** calls of the canvas setters, latest first *)
  requests : list Request;
  (** [svg.getBoundingClientRect()], decided by the page layout *)
  boundingClientRect : Rect;
  (** the widget's own state and its part of the document *)
  _state : DragState;
  svg_viewBox : option ViewBoxAttr;
  _viewport : option Rect;
  _elementsGroup : list MirrorNode
}.

Definition with_heap (h : gmap loc Rect) (w : World) : World :=
  {| heap := h; _canvas := _canvas w; _elementRegistry := _elementRegistry w;
     requests := requests w; boundingClientRect := boundingClientRect w;
     _state := _state w; svg_viewBox := svg_viewBox w;
     _viewport := _viewport w; _elementsGroup := _elementsGroup w |}.

Definition with_canvas (c : C) (r : list Request) (w : World) : World :=
  {| heap := heap w; _canvas := c; _elementRegistry := _elementRegistry w;
     requests := r; boundingClientRect := boundingClientRect w;
     _state := _state w; svg_viewBox := svg_viewBox w;
     _viewport := _viewport w; _elementsGroup := _elementsGroup w |}.

Definition with_registry (r : gmap string Gfx) (w : World) : World :=
  {| heap := heap w; _canvas := _canvas w; _elementRegistry := r;
     requests := requests w; boundingClientRect := boundingClientRect w;
     _state := _state w; svg_viewBox := svg_viewBox w;
     _viewport := _viewport w; _elementsGroup := _elementsGroup w |}.

Definition with_state (s : DragState) (w : World) : World :=
  {| heap := heap w; _canvas := _canvas w; _elementRegistry := _elementRegistry w;
     requests := requests w; boundingClientRect := boundingClientRect w;
     _state := s; svg_viewBox := svg_viewBox w;
     _viewport := _viewport w; _elementsGroup := _elementsGroup w |}.

Definition with_viewBox (a : ViewBoxAttr) (w : World) : World :=
  {| heap := heap w; _canvas := _canvas w; _elementRegistry := _elementRegistry w;
     requests := requests w; boundingClientRect := boundingClientRect w;
     _state := _state w; svg_viewBox := Some a;
     _viewport := _viewport w; _elementsGroup := _elementsGroup w |}.

Definition with_viewport (v : Rect) (w : World) : World :=
  {| heap := heap w; _canvas := _canvas w; _elementRegistry := _elementRegistry w;
     requests := requests w; boundingClientRect := boundingClientRect w;
     _state := _state w; svg_viewBox := svg_viewBox w;
     _viewport := Some v; _elementsGroup := _elementsGroup w |}.

Definition with_elementsGroup (g : list MirrorNode) (w : World) : World :=
  {| heap := heap w; _canvas := _canvas w; _elementRegistry := _elementRegistry w;
     requests := requests w; boundingClientRect := boundingClientRect w;
     _state := _state w; svg_viewBox := svg_viewBox w;
     _viewport := _viewport w; _elementsGroup := g |}.

(** *** Computations: a world in, a result and a world out, or an exception *)

Definition M (A : Type) : Type := World -> option (A * World).

Definition ret {A} (a : A) : M A := fun w => Some (a, w).

Definition bind {A B} (m : M A) (k : A -> M B) : M B :=
  fun w => match m w with
           | Some (a, w') => k a w'
           | None => None
           end.

Definition throw {A} : M A := fun _ => None.

Definition gets {A} (f : World -> A) : M A := fun w => Some (f w, w).

Definition modify (f : World -> World) : M unit := fun w => Some (tt, f w).

Notation "x <- m ;; k" := (bind m (fun x => k))
  (at level 90, m at level 80, right associativity).
Notation "m ;;; k" := (bind m (fun _ => k))
  (at level 90, right associativity).

(** Run a computation for its effect. *)
Definition exec {A} (m : M A) (w : World) : option World :=
  match m w with Some (_, w') => Some w' | None => None end.

(** [forEach] *)
Fixpoint forEach {A} (l : list A) (f : A -> M unit) : M unit :=
  match l with
  | [] => ret tt
  | a :: l' => f a ;;; forEach l' f
  end.

(** **** Rectangles in the store *)

Definition alloc (b : Rect) : M loc :=
  fun w => let l := fresh (dom (heap w)) in
           Some (l, with_heap (<[l := b]> (heap w)) w).

(** [bounds.f] *)
Definition read (bounds : loc) (f : field) : M number :=
  fun w => match heap w !! bounds with
           | Some b => Some (get_field f b, w)
           | None => None
           end.

(** [assign(bounds, source)] *)
Definition assign (bounds : loc) (source : list (field * number)) : M unit :=
  fun w => match heap w !! bounds with
           | Some b =>
               Some (tt, with_heap (<[bounds := assign_fields source b]> (heap w)) w)
           | None => None
           end.

(** **** Calls on the canvas *)

Definition canvas_getBBox : M loc :=
  c <- gets _canvas ;; alloc (getBBox c).

Definition canvas_viewbox : M Rect :=
  c <- gets _canvas ;; ret (get_viewbox c).

Definition canvas_viewbox_set (box : Rect) : M unit :=
  modify (fun w => with_canvas (set_viewbox box (_canvas w))
                               (SetViewbox box :: requests w) w).

Definition canvas_zoom : M number :=
  c <- gets _canvas ;; ret (get_zoom c).

Definition canvas_zoom_set (scale : number) : M unit :=
  modify (fun w => with_canvas (set_zoom scale (_canvas w))
                               (SetZoom scale :: requests w) w).

(** *** Helpers *)

Definition isConnection (element : Element) : bool :=
  match el_waypoints element with Some _ => true | None => false end.

Definition getDjsVisual (gfx : Gfx) : option SvgNode :=
  head (filter (fun childNode => class_attr childNode = Some "djs-visual"%string) gfx).

Definition fitAspectRatio (bounds : loc) (targetAspectRatio : number) : M loc :=
  bounds_width <- read bounds Width ;;
  bounds_height <- read bounds Height ;;
  let aspectRatio := bounds_width / bounds_height in
  if aspectRatio >? targetAspectRatio then
    (* height needs to be fitted *)
    bounds_width <- read bounds Width ;;
    let height := bounds_width * (1%Q / targetAspectRatio) in
    bounds_y <- read bounds Y ;;
    bounds_height <- read bounds Height ;;
    let y := bounds_y - ((height - bounds_height) / 2%Q) in
    assign bounds [(Y, y); (Height, height)] ;;;
    ret bounds
  else if aspectRatio <? targetAspectRatio then
    (* width needs to be fitted *)
    bounds_height <- read bounds Height ;;
    let width := bounds_height * targetAspectRatio in
    bounds_x <- read bounds X ;;
    bounds_width <- read bounds Width ;;
    let x := bounds_x - ((width - bounds_width) / 2%Q) in
    assign bounds [(X, x); (Width, width)] ;;;
    ret bounds
  else
    ret bounds.

(** The record [fitAspectRatio] leaves behind its reference, as a function
    of the record it found there (see [fitAspectRatio_run]). *)
Definition fit_rect (b : Rect) (targetAspectRatio : number) : Rect :=
  let aspectRatio := rect_width b / rect_height b in
  if aspectRatio >? targetAspectRatio then
    let height := rect_width b * (1%Q / targetAspectRatio) in
    let y := rect_y b - ((height - rect_height b) / 2%Q) in
    assign_fields [(Y, y); (Height, height)] b
  else if aspectRatio <? targetAspectRatio then
    let width := rect_height b * targetAspectRatio in
    let x := rect_x b - ((width - rect_width b) / 2%Q) in
    assign_fields [(X, x); (Width, width)] b
  else b.

Definition map (x inMin inMax outMin outMax : number) : number :=
  let inRange := inMax - inMin in
  let outRange := outMax - outMin in
  (x - inMin) * outRange / inRange + outMin.

Definition mapClickToDiagramPoint (event : Event) : M Point :=
  boundingClientRect <- gets boundingClientRect ;;
  (* take different aspect ratios of default layers bounding box and
     minimap into account *)
  raw <- canvas_getBBox ;;
  bBox <- fitAspectRatio raw
            (rect_width boundingClientRect / rect_height boundingClientRect) ;;
  let offsetX := offsetX event in
  let offsetY := offsetY event in
  (* map click position to diagram position *)
  bBox_x <- read bBox X ;;
  bBox_width <- read bBox Width ;;
  bBox_y <- read bBox Y ;;
  bBox_height <- read bBox Height ;;
  let diagramX :=
    map offsetX 0%Q (rect_width boundingClientRect) bBox_x (bBox_x + bBox_width) in
  let diagramY :=
    map offsetY 0%Q (rect_height boundingClientRect) bBox_y (bBox_y + bBox_height) in
  ret {| point_x := diagramX; point_y := diagramY |}.

Definition setViewboxCenteredAroundPoint (point : Point) : M unit :=
  (* get cached viewbox to preserve zoom *)
  cachedViewbox <- canvas_viewbox ;;
  let cachedViewboxWidth := rect_width cachedViewbox in
  let cachedViewboxHeight := rect_height cachedViewbox in
  canvas_viewbox_set
    {| rect_x := point_x point - cachedViewboxWidth / 2%Q;
       rect_y := point_y point - cachedViewboxHeight / 2%Q;
       rect_width := cachedViewboxWidth;
       rect_height := cachedViewboxHeight |}.

(** *** Methods *)

Definition _update : M unit :=
  bBox <- canvas_getBBox ;;
  viewbox <- canvas_viewbox ;;
  bBox_x <- read bBox X ;;
  bBox_y <- read bBox Y ;;
  bBox_width <- read bBox Width ;;
  bBox_height <- read bBox Height ;;
  (* update viewbox *)
  (if js_lt (VNum bBox_width) (dim_width MIN_VIEWBOX_DIMENSIONS)
      && js_lt (VNum bBox_height) (dim_height MIN_VIEWBOX_DIMENSIONS)
   then
     let x := js_sub (VNum bBox_x)
                (js_div (js_sub (dim_width MIN_VIEWBOX_DIMENSIONS) (VNum bBox_width))
                        (VNum 2%Q)) in
     let y := js_sub (VNum bBox_y)
                (js_div (js_sub (dim_height MIN_VIEWBOX_DIMENSIONS) (VNum bBox_height))
                        (VNum 2%Q)) in
     let width := if js_lt (VNum bBox_width) (dim_width MIN_VIEWBOX_DIMENSIONS)
                  then dim_width MIN_VIEWBOX_DIMENSIONS else VNum bBox_width in
     let height := if js_lt (VNum bBox_height) (dim_height MIN_VIEWBOX_DIMENSIONS)
                   then dim_height MIN_VIEWBOX_DIMENSIONS else VNum bBox_height in
     modify (with_viewBox {| vb_x := x; vb_y := y;
                             vb_width := width; vb_height := height |})
   else
     modify (with_viewBox {| vb_x := VNum bBox_x; vb_y := VNum bBox_y;
                             vb_width := VNum bBox_width;
                             vb_height := VNum bBox_height |})) ;;;
  (* update viewport *)
  modify (with_viewport {| rect_x := rect_x viewbox; rect_y := rect_y viewbox;
                           rect_width := rect_width viewbox;
                           rect_height := rect_height viewbox |}).

(** [svgClone] of a missing node raises. *)
Definition svgClone (node : option SvgNode) : M SvgNode :=
  match node with
  | Some n => ret n
  | None => throw
  end.

Definition addElement (element : Element) (djsVisual : option SvgNode) : M MirrorNode :=
  visual <- svgClone djsVisual ;;
  let clone :=
    {| mirror_id := el_id element;
       mirror_transform :=
         if negb (isConnection element)
         then Some (el_x element, el_y element) else None;
       mirror_visual := visual |} in
  modify (fun w => with_elementsGroup (_elementsGroup w ++ [clone]) w) ;;;
  ret clone.

(** [this._svg.getElementById(elementId)]: the position of the first node
    with the ID, in document order.  The miniature holds the elements
    layer and, after it, the indicator, which has no id; the search goes
    through the clones and through the copied nodes below their roots.
    An empty [id] attribute gives a node no ID, so the empty string finds
    nothing. *)
Definition getElementById (elementId : string) (nodes : list MirrorNode)
    : option (nat * list nat) :=
  if String.eqb elementId "" then None else layer_path elementId nodes.

Definition removeElement (element : Element) : M unit :=
  nodes <- gets _elementsGroup ;;
  match getElementById (el_id element) nodes with
  | Some node => modify (with_elementsGroup (svgRemove node nodes))
  | None => ret tt
  end.

(** *** The constructor and the listeners it binds *)

Definition Minimap (canvas : C) (elementRegistry : gmap string Gfx)
    (layout : Rect) : World :=
  {| heap := ∅;
     _canvas := canvas;
     _elementRegistry := elementRegistry;
     requests := [];
     boundingClientRect := layout;
     (* state is necessary for viewport dragging *)
     _state := {| isDragging := false;
                  initialDragPosition := Undefined;
                  cachedViewbox := Null |};
     svg_viewBox := None;
     _viewport := None;
     _elementsGroup := [] |}.

(** set viewbox on click *)
Definition on_click (event : Event) : M Event :=
  diagramPoint <- mapClickToDiagramPoint event ;;
  setViewboxCenteredAroundPoint diagramPoint ;;;
  _update ;;;
  ret event.

(** scroll canvas on drag *)
Definition on_mousedown (event : Event) : M Event :=
  (* init dragging *)
  viewbox <- canvas_viewbox ;;
  modify (with_state
            {| isDragging := true;
               initialDragPosition :=
                 Obj {| point_x := clientX event; point_y := clientY event |};
               cachedViewbox := Obj viewbox |}) ;;;
  ret event.

(** prevent drag propagation (bound on the enclosing panel by [_init]) *)
Definition on_parent_mousedown (event : Event) : M Event :=
  ret (stopPropagation event).

Definition on_mousemove (event : Event) : M Event :=
  state <- gets _state ;;
  (* set viewbox if dragging active *)
  if isDragging state then
    diagramPoint <- mapClickToDiagramPoint event ;;
    setViewboxCenteredAroundPoint diagramPoint ;;;
    _update ;;;
    ret event
  else ret event.

Definition on_mouseup (event : Event) : M Event :=
  (* end dragging *)
  modify (with_state
            {| isDragging := false;
               initialDragPosition := Null;
               cachedViewbox := Null |}) ;;;
  ret event.

Definition on_wheel (event : Event) : M Event :=
  (* stop propagation and handle scroll differently *)
  let event := stopPropagation event in
  diagramPoint <- mapClickToDiagramPoint event ;;
  setViewboxCenteredAroundPoint diagramPoint ;;;
  zoom <- canvas_zoom ;;
  canvas_zoom_set
    (nmin (nmax (zoom - (deltaY event / ZOOM_SMOOTHING)) MAX_ZOOM) MIN_ZOOM) ;;;
  _update ;;;
  ret event.

(** add shape on shape/connection added *)
Definition on_added (element : Element) (gfx : Gfx) : M unit :=
  let djsVisual := getDjsVisual gfx in
  addElement element djsVisual ;;;
  _update.

(** update on elements changed *)
Definition on_elements_changed (elements : list Element) : M unit :=
  forEach elements (fun element =>
    removeElement element ;;;
    gfx <- gets (fun w => _elementRegistry w !! el_id element) ;;
    match gfx with
    | Some gfx =>
        let djsVisual := getDjsVisual gfx in
        addElement element djsVisual ;;; ret tt
    | None => ret tt
    end) ;;;
  _update.

(** update on viewbox changed *)
Definition on_viewbox_changed : M unit := _update.

(** The drag fields hold objects exactly while a drag is active. *)
Definition drag_consistent (s : DragState) : Prop :=
  (is_obj (initialDragPosition s) = true <-> isDragging s = true)
  /\ (is_obj (cachedViewbox s) = true <-> isDragging s = true).

(** *** Inputs

    What reaches the widget: pointer events from the page and
    notifications from the diagram.  A notification of an added or removed
    element follows the registry's own update; the widget subscribes to
    additions, bulk changes and viewbox changes. *)

Inductive Input :=
  | Click (event : Event)
  | MouseDown (event : Event)
  | MouseMove (event : Event)
  | MouseUp (event : Event)
  | Wheel (event : Event)
  | ElementAdded (element : Element) (gfx : Gfx)
  | ElementRemoved (element : Element)
  | ElementsChanged (elements : list Element)
  | ViewboxChanged.

Definition is_pointer (i : Input) : bool :=
  match i with
  | Click _ | MouseDown _ | MouseMove _ | MouseUp _ | Wheel _ => true
  | _ => false
  end.

(** The registry update a notification reports. *)
Definition authority (i : Input) (w : World) : World :=
  match i with
  | ElementAdded element gfx =>
      with_registry (<[el_id element := gfx]> (_elementRegistry w)) w
  | ElementRemoved element =>
      with_registry (delete (el_id element) (_elementRegistry w)) w
  | _ => w
  end.

(** The listener an input reaches. *)
Definition handle (i : Input) : M unit :=
  match i with
  | Click event => on_click event ;;; ret tt
  | MouseDown event =>
      event <- on_mousedown event ;; on_parent_mousedown event ;;; ret tt
  | MouseMove event => on_mousemove event ;;; ret tt
  | MouseUp event => on_mouseup event ;;; ret tt
  | Wheel event => on_wheel event ;;; ret tt
  | ElementAdded element gfx => on_added element gfx
  | ElementRemoved _ => ret tt
  | ElementsChanged elements => on_elements_changed elements
  | ViewboxChanged => on_viewbox_changed
  end.

Definition deliver (i : Input) : M unit :=
  modify (authority i) ;;; handle i.

Definition run (inputs : list Input) : M unit := forEach inputs deliver.

(** Ids of the clones in the elements layer, and ids the registry knows. *)
Definition mirror_ids (w : World) : list string :=
  mirror_id <$> _elementsGroup w.

Definition registry_ids (w : World) : gset string :=
  dom (_elementRegistry w).

Definition has_visual (gfx : Gfx) : bool :=
  match getDjsVisual gfx with Some _ => true | None => false end.

(** The state a pointer input leaves behind. *)
Definition pointer_state (i : Input) (w : World) : DragState :=
  match i with
  | MouseDown event =>
      {| isDragging := true;
         initialDragPosition :=
           Obj {| point_x := clientX event; point_y := clientY event |};
         cachedViewbox := Obj (get_viewbox (_canvas w)) |}
  | MouseUp _ =>
      {| isDragging := false; initialDragPosition := Null;
         cachedViewbox := Null |}
  | _ => _state w
  end.

(** The ids carried below the root of the visual that [addElement] copies
    out of some graphics. *)
Definition gfx_ids (gfx : Gfx) : list string :=
  match getDjsVisual gfx with
  | Some visual => visual_ids visual
  | None => []
  end.

(** The registry and the elements layer agree up to the pending ids; none
    of these ids is empty; the ids carried inside the copied visuals, in
    the layer and in the registered graphics, are among [inner]. *)
Definition synced (reg pend inner : gset string) (w : World) : Prop :=
  registry_ids w = reg
  /\ NoDup (mirror_ids w)
  /\ (list_to_set (mirror_ids w) : gset string) = reg ∪ pend
  /\ reg ## pend
  /\ map_Forall (fun _ gfx => has_visual gfx = true) (_elementRegistry w)
  /\ (""%string ∉ reg ∪ pend)
  /\ (list_to_set (inner_ids (_elementsGroup w)) : gset string) ⊆ inner
  /\ map_Forall (fun _ gfx => (list_to_set (gfx_ids gfx) : gset string) ⊆ inner)
        (_elementRegistry w).

(** Bookkeeping along a run of inputs.  [reg] are the registered ids,
    [pend] the ids taken out of the registry that no bulk change has
    listed since, and [inner] the ids carried inside the visuals of the
    elements added so far.  A run is announced when every added element
    brings a new, non-empty id and graphics with a visual, no bulk change
    lists an id carried inside a visual added before it, and every removal
    has been followed by a bulk change that lists the removed element. *)
Fixpoint announced (reg pend inner : gset string) (inputs : list Input) : bool :=
  match inputs with
  | [] => bool_decide (pend = ∅)
  | ElementAdded element gfx :: rest =>
      bool_decide (el_id element ∉ reg ∪ pend)
      && negb (String.eqb (el_id element) "")
      && has_visual gfx
      && announced ({[el_id element]} ∪ reg) pend
           (inner ∪ list_to_set (gfx_ids gfx)) rest
  | ElementRemoved element :: rest =>
      announced (reg ∖ {[el_id element]})
        (if bool_decide (el_id element ∈ reg)
         then {[el_id element]} ∪ pend else pend) inner rest
  | ElementsChanged elements :: rest =>
      bool_decide ((list_to_set (el_id <$> elements) : gset string) ## inner)
      && announced reg (pend ∖ list_to_set (el_id <$> elements)) inner rest
  | _ :: rest => announced reg pend inner rest
  end.

End Widget.

Arguments World C : clear implicits.
Arguments M C A : clear implicits.

(** *** A reference canvas

    A container of fixed size that shows [outer / scale] diagram units,
    used to evaluate the widget on concrete inputs. *)

Record SimpleCanvas := {
  sc_bbox : Rect;
  sc_outer_width : number;
  sc_outer_height : number;
  sc_scale : number;
  sc_x : number;
  sc_y : number
}.

#[export] Instance simple_canvas : CanvasAPI SimpleCanvas := {|
  getBBox c := sc_bbox c;
  get_viewbox c :=
    {| rect_x := sc_x c; rect_y := sc_y c;
       rect_width := sc_outer_width c / sc_scale c;
       rect_height := sc_outer_height c / sc_scale c |};
  set_viewbox box c :=
    {| sc_bbox := sc_bbox c;
       sc_outer_width := sc_outer_width c;
       sc_outer_height := sc_outer_height c;
       sc_scale := nmin (sc_outer_width c / rect_width box)
                        (sc_outer_height c / rect_height box);
       sc_x := rect_x box; sc_y := rect_y box |};
  get_zoom c := sc_scale c;
  set_zoom scale c :=
    {| sc_bbox := sc_bbox c;
       sc_outer_width := sc_outer_width c;
       sc_outer_height := sc_outer_height c;
       sc_scale := scale;
       sc_x := sc_x c; sc_y := sc_y c |}
|}.

(** *** Concrete inputs *)

Definition square : Rect :=
  {| rect_x := Fin 0; rect_y := Fin 0;
     rect_width := Fin 100; rect_height := Fin 100 |}.

(** A 1000 x 500 canvas at scale 1 over a 100 x 100 diagram. *)
Definition demo_canvas : SimpleCanvas :=
  {| sc_bbox := square;
     sc_outer_width := Fin 1000; sc_outer_height := Fin 500;
     sc_scale := Fin 1; sc_x := Fin 0; sc_y := Fin 0 |}.

(** The 320 x 180 panel. *)
Definition demo_layout : Rect :=
  {| rect_x := Fin 0; rect_y := Fin 0;
     rect_width := Fin 320; rect_height := Fin 180 |}.

Definition demo_world : World SimpleCanvas :=
  Minimap demo_canvas ∅ demo_layout.

(** The same world with the square stored at location 1. *)
Definition boxed_world : World SimpleCanvas :=
  with_heap {[ 1%positive := square ]} demo_world.

Definition activity : Element :=
  {| el_id := "Activity_1"; el_x := Fin 10; el_y := Fin 20; el_waypoints := None |}.

Definition flow : Element :=
  {| el_id := "Flow_1"; el_x := Fin 0; el_y := Fin 0;
     el_waypoints := Some [ {| point_x := Fin 0; point_y := Fin 0 |} ] |}.

(** The graphics of an element: a visual that holds a rectangle and a
    label, and the hit area. *)
Definition shape : SvgNode :=
  {| class_attr := Some "djs-visual"%string; id_attr := None; markup := "<g>";
     childNodes :=
       [ {| class_attr := None; id_attr := None; markup := "<rect>";
            childNodes := [] |};
         {| class_attr := Some "djs-label"%string; id_attr := Some "label"%string;
            markup := "<text>"; childNodes := [] |} ] |}.

Definition drawn : Gfx :=
  [ shape;
    {| class_attr := Some "djs-hit"%string; id_attr := None; markup := "<rect>";
       childNodes := [] |} ].

(** Graphics whose visual holds a node that carries the id of the flow. *)
Definition tagged : Gfx :=
  [ {| class_attr := Some "djs-visual"%string; id_attr := None; markup := "<g>";
       childNodes :=
         [ {| class_attr := None; id_attr := Some "Flow_1"%string;
              markup := "<rect>"; childNodes := [] |} ] |} ].

(** The demo world in the middle of a drag. *)
Definition dragging_world : World SimpleCanvas :=
  with_state
    {| isDragging := true;
       initialDragPosition := Obj {| point_x := Fin 10; point_y := Fin 10 |};
       cachedViewbox := Obj (get_viewbox demo_canvas) |}
    demo_world.

Definition pointer (ox oy dy : Q) : Event :=
  {| clientX := Fin ox; clientY := Fin oy;
     offsetX := Fin ox; offsetY := Fin oy; deltaY := Fin dy;
     propagationStopped := false; defaultPrevented := false |}.

(** *** Placement of the panel *)

Definition MINIMAP_POSITION : string := "right-top".

Definition MINIMAP_MARGIN : string := "20px".

(** The first piece of [s] up to the separator, and the pieces after it. *)
Fixpoint split_on (sep : ascii) (s : string) : string * list string :=
  match s with
  | EmptyString => (EmptyString, [])
  | String c s' =>
      let '(piece, pieces) := split_on sep s' in
      if Ascii.eqb c sep then (EmptyString, piece :: pieces)
      else (String c piece, pieces)
  end.

(** [s.split(sep)] for a separator of one character. *)
Definition js_split (sep : ascii) (s : string) : list string :=
  let '(piece, pieces) := split_on sep s in piece :: pieces.

(** [v || fallback] on a string that may be missing: the empty string and
    [undefined] are falsy. *)
Definition or_else (v : option string) (fallback : string) : string :=
  match v with
  | Some EmptyString | None => fallback
  | Some s => s
  end.

Record Positions := { horizontal : string; vertical : string }.

Definition getPositions (position : string) : Positions :=
  let split := js_split "-" position in
  {| horizontal := or_else (split !! 0%nat) "right";
     vertical := or_else (split !! 1%nat) "top" |}.

Definition getHorizontalPosition (position : string) : string :=
  horizontal (getPositions position).

Definition getVerticalPosition (position : string) : string :=
  vertical (getPositions position).

(** The two [switch] statements of [_init]: the style record is patched
    with the margin on the chosen sides. *)
Definition init_styles (position : string) (styles : gmap string string)
    : gmap string string :=
  let styles :=
    if String.eqb (getHorizontalPosition position) "left"
    then <["left"%string := MINIMAP_MARGIN]> styles
    else <["right"%string := MINIMAP_MARGIN]> styles in
  if String.eqb (getVerticalPosition position) "bottom"
  then <["bottom"%string := MINIMAP_MARGIN]> styles
  else <["top"%string := MINIMAP_MARGIN]> styles.

(** *** Reading a run of inputs *)

(** The clone [addElement] makes of an element from the registry's
    graphics, when the registry has graphics with a visual for it. *)
Definition clone_of (registry : gmap string Gfx) (element : Element)
    : option MirrorNode :=
  match registry !! el_id element with
  | Some gfx =>
      match getDjsVisual gfx with
      | Some visual =>
          Some {| mirror_id := el_id element;
                  mirror_transform :=
                    if negb (isConnection element)
                    then Some (el_x element, el_y element) else None;
                  mirror_visual := visual |}
      | None => None
      end
  | None => None
  end.

(** The registered and the pending ids after a run of inputs in which every
    added element brings a new, non-empty id and graphics with a visual,
    and no bulk change lists an id carried inside a visual added before
    it; [None] when the run is not of this kind. *)
Fixpoint track (reg pend inner : gset string) (inputs : list Input)
    : option (gset string * gset string) :=
  match inputs with
  | [] => Some (reg, pend)
  | ElementAdded element gfx :: rest =>
      if bool_decide (el_id element ∉ reg ∪ pend)
         && negb (String.eqb (el_id element) "")
         && has_visual gfx
      then track ({[el_id element]} ∪ reg) pend
             (inner ∪ list_to_set (gfx_ids gfx)) rest
      else None
  | ElementRemoved element :: rest =>
      track (reg ∖ {[el_id element]})
        (if bool_decide (el_id element ∈ reg)
         then {[el_id element]} ∪ pend else pend) inner rest
  | ElementsChanged elements :: rest =>
      if bool_decide ((list_to_set (el_id <$> elements) : gset string) ## inner)
      then track reg (pend ∖ list_to_set (el_id <$> elements)) inner rest
      else None
  | _ :: rest => track reg pend inner rest
  end.

(** The part of the world the canvas and the pointer own is the same in
    both worlds. *)
Definition same_controls {C : Type} (w w' : World C) : Prop :=
  requests w' = requests w /\ _canvas w' = _canvas w /\ _state w' = _state w.

(** *** More concrete inputs *)

Definition activity_clone : MirrorNode :=
  {| mirror_id := "Activity_1";
     mirror_transform := Some (Fin 10, Fin 20);
     mirror_visual := shape |}.

Definition flow_clone : MirrorNode :=
  {| mirror_id := "Flow_1";
     mirror_transform := None;
     mirror_visual := shape |}.

(** The demo world with both elements registered and mirrored. *)
Definition mirrored_world : World SimpleCanvas :=
  with_elementsGroup [activity_clone; flow_clone]
    (with_registry {[ "Activity_1"%string := drawn; "Flow_1"%string := drawn ]}
       demo_world).

(** The demo world with an empty box, of width and height zero, stored at
    location 1. *)
Definition empty_box : Rect :=
  {| rect_x := Fin 5; rect_y := Fin 7;
     rect_width := Fin 0; rect_height := Fin 0 |}.

Definition empty_box_world : World SimpleCanvas :=
  with_heap {[ 1%positive := empty_box ]} demo_world.

(** The activity moved to (30, 40). *)
Definition moved_activity : Element :=
  {| el_id := "Activity_1"; el_x := Fin 30; el_y := Fin 40;
     el_waypoints := None |}.

(** *** The arithmetic of the helpers in double precision

    The numbers of the engine are binary64 floating-point numbers: every
    operation rounds its exact result to the nearest representable number
    and overflows to an infinity.  The three numeric helpers are given
    here over the primitive floats, operation by operation as in the
    source; what a helper computes exactly is stated about these. *)

Module Binary64.

Local Open Scope float_scope.

(** [a > b] *)
Definition gtb (a b : float) : bool := b <? a.

Infix ">?" := gtb (at level 70, no associativity) : float_scope.

(** [{x, y, width, height}] *)
Record Rect := {
  rect_x : float;
  rect_y : float;
  rect_width : float;
  rect_height : float
}.

Record Point := { point_x : float; point_y : float }.

(** The box [fitAspectRatio] leaves in [bounds] and returns. *)
Definition fitAspectRatio (bounds : Rect) (targetAspectRatio : float) : Rect :=
  let aspectRatio := rect_width bounds / rect_height bounds in
  if aspectRatio >? targetAspectRatio then
    (* height needs to be fitted *)
    let height := rect_width bounds * (1 / targetAspectRatio) in
    let y := rect_y bounds - ((height - rect_height bounds) / 2) in
    {| rect_x := rect_x bounds; rect_y := y;
       rect_width := rect_width bounds; rect_height := height |}
  else if aspectRatio <? targetAspectRatio then
    (* width needs to be fitted *)
    let width := rect_height bounds * targetAspectRatio in
    let x := rect_x bounds - ((width - rect_width bounds) / 2) in
    {| rect_x := x; rect_y := rect_y bounds;
       rect_width := width; rect_height := rect_height bounds |}
  else bounds.

Definition map (x inMin inMax outMin outMax : float) : float :=
  let inRange := inMax - inMin in
  let outRange := outMax - outMin in
  (x - inMin) * outRange / inRange + outMin.

(** The box [setViewboxCenteredAroundPoint] hands to [canvas.viewbox(box)],
    [cachedViewbox] being what [canvas.viewbox()] returned. *)
Definition setViewboxCenteredAroundPoint (point : Point) (cachedViewbox : Rect)
    : Rect :=
  let cachedViewboxWidth := rect_width cachedViewbox in
  let cachedViewboxHeight := rect_height cachedViewbox in
  {| rect_x := point_x point - cachedViewboxWidth / 2;
     rect_y := point_y point - cachedViewboxHeight / 2;
     rect_width := cachedViewboxWidth;
     rect_height := cachedViewboxHeight |}.

(** Numbers of the specification of binary64: zero or finite; positive,
    that is above zero, plus infinity included. *)
Definition finite_sf (f : spec_float) : bool :=
  match f with
  | S754_zero _ | S754_finite _ _ _ => true
  | _ => false
  end.

Definition positive_sf (f : spec_float) : bool := SFltb (S754_zero false) f.

(** Zero or above: a zero of either sign, a positive finite number or plus
    infinity. *)
Definition nonneg_sf (f : spec_float) : bool := SFleb (S754_zero false) f.

(** The value of a finite number as a multiple of [2 ^ e']. *)
Definition aligned (s : bool) (m : positive) (e e' : Z) : Z :=
  cond_Zopp s (Z.pos (fst (shl_align m e e'))).

End Binary64.

(** ** Arithmetic on finite numbers *)

Section FiniteArithmetic.

Local Open Scope Q_scope.

Lemma Qeq_bool_nonzero (q : Q) : ~ q == 0 -> Qeq_bool q 0 = false.
Proof.
  intros Hq. destruct (Qeq_bool q 0) eqn:E; [|reflexivity].
  apply Qeq_bool_iff in E. contradiction.
Qed.

Lemma ndiv_fin (p q : Q) : ~ q == 0 -> ndiv (Fin p) (Fin q) = Fin (p / q).
Proof. intros Hq. simpl. rewrite Qeq_bool_nonzero by assumption. reflexivity. Qed.

Lemma nlt_fin_true (p q : Q) : p < q -> nlt (Fin p) (Fin q) = true.
Proof.
  intros H. simpl. destruct (Qle_bool q p) eqn:E; [|reflexivity].
  apply Qle_bool_iff in E. lra.
Qed.

Lemma nlt_fin_false (p q : Q) : q <= p -> nlt (Fin p) (Fin q) = false.
Proof.
  intros H. simpl. apply Qle_bool_iff in H. rewrite H. reflexivity.
Qed.

Lemma nlt_fin_spec (p q : Q) :
  (nlt (Fin p) (Fin q) = true /\ p < q) \/ (nlt (Fin p) (Fin q) = false /\ q <= p).
Proof.
  destruct (Qlt_le_dec p q) as [H|H].
  - left. split; [apply nlt_fin_true|]; assumption.
  - right. split; [apply nlt_fin_false|]; assumption.
Qed.

Lemma nlt_NaN_r (a : number) : nlt a NaN = false.
Proof. destruct a; reflexivity. Qed.

End FiniteArithmetic.

(** ** Running the helpers *)

Section Runs.

Context {C : Type} {canvasAPI : CanvasAPI C}.

Implicit Types (w : World C) (b : Rect) (bounds : loc).

Local Open Scope Q_scope.

Lemma with_heap_id w : with_heap (heap w) w = w.
Proof. destruct w; reflexivity. Qed.

Lemma read_run w bounds b f :
  heap w !! bounds = Some b -> read bounds f w = Some (get_field f b, w).
Proof. intros H. unfold read. rewrite H. reflexivity. Qed.

Lemma assign_run w bounds b source :
  heap w !! bounds = Some b ->
  assign bounds source w
  = Some (tt, with_heap (<[bounds := assign_fields source b]> (heap w)) w).
Proof. intros H. unfold assign. rewrite H. reflexivity. Qed.

Lemma fitAspectRatio_run w bounds b r :
  heap w !! bounds = Some b ->
  fitAspectRatio bounds r w
  = Some (bounds, with_heap (<[bounds := fit_rect b r]> (heap w)) w).
Proof.
  intros H. unfold fitAspectRatio, fit_rect, bind.
  rewrite !(read_run w bounds b) by assumption. simpl get_field.
  destruct (ngt _ r).
  - rewrite !(read_run w bounds b) by assumption.
    rewrite (assign_run w bounds b) by assumption. reflexivity.
  - destruct (nlt _ r).
    + rewrite !(read_run w bounds b) by assumption.
      rewrite (assign_run w bounds b) by assumption. reflexivity.
    + unfold ret. rewrite insert_id by assumption.
      rewrite with_heap_id. reflexivity.
Qed.

(** The floor test of [_update] compares a number with a CSS length. *)
Lemma floor_test_width (n : number) :
  js_lt (VNum n) (dim_width MIN_VIEWBOX_DIMENSIONS) = false.
Proof.
  unfold js_lt. change (ToNumber (dim_width MIN_VIEWBOX_DIMENSIONS)) with NaN.
  apply nlt_NaN_r.
Qed.

Lemma floor_test_height (n : number) :
  js_lt (VNum n) (dim_height MIN_VIEWBOX_DIMENSIONS) = false.
Proof.
  unfold js_lt. change (ToNumber (dim_height MIN_VIEWBOX_DIMENSIONS)) with NaN.
  apply nlt_NaN_r.
Qed.

Lemma canvas_getBBox_run w :
  canvas_getBBox w
  = Some (fresh (dom (heap w)),
          with_heap (<[fresh (dom (heap w)) := getBBox (_canvas w)]> (heap w)) w).
Proof. reflexivity. Qed.

(** The diagram point under the pointer. *)
Lemma mapClickToDiagramPoint_run w event :
  let layout := boundingClientRect w in
  let bBox := fit_rect (getBBox (_canvas w))
                (rect_width layout / rect_height layout)%num in
  exists h' : gmap loc Rect,
    mapClickToDiagramPoint event w
    = Some ({| point_x := map (offsetX event) (Fin 0) (rect_width layout)
                            (rect_x bBox) (rect_x bBox + rect_width bBox)%num;
               point_y := map (offsetY event) (Fin 0) (rect_height layout)
                            (rect_y bBox) (rect_y bBox + rect_height bBox)%num |},
            with_heap h' w).
Proof.
  intros layout bBox.
  unfold mapClickToDiagramPoint, bind, gets.
  rewrite canvas_getBBox_run.
  set (l := fresh (dom (heap w))).
  set (w1 := with_heap _ w).
  assert (H1 : heap w1 !! l = Some (getBBox (_canvas w))).
  { subst w1. cbn. apply lookup_insert_eq. }
  cbn [boundingClientRect w1 with_heap].
  change (boundingClientRect w1) with layout.
  rewrite (fitAspectRatio_run w1 l _ _ H1). fold bBox.
  set (w2 := with_heap _ w1).
  assert (H2 : heap w2 !! l = Some bBox).
  { subst w2. cbn. apply lookup_insert_eq. }
  rewrite !(read_run w2 l bBox) by assumption.
  eexists. reflexivity.
Qed.

Lemma setViewboxCenteredAroundPoint_run w point :
  let v := get_viewbox (_canvas w) in
  let box := {| rect_x := (point_x point - rect_width v / 2)%num;
                rect_y := (point_y point - rect_height v / 2)%num;
                rect_width := rect_width v;
                rect_height := rect_height v |} in
  setViewboxCenteredAroundPoint point w
  = Some (tt, with_canvas (set_viewbox box (_canvas w))
                          (SetViewbox box :: requests w) w).
Proof. reflexivity. Qed.

Lemma _update_run w :
  let bBox := getBBox (_canvas w) in
  let v := get_viewbox (_canvas w) in
  exists h' : gmap loc Rect,
    _update w
    = Some (tt,
            with_viewport
              {| rect_x := rect_x v; rect_y := rect_y v;
                 rect_width := rect_width v; rect_height := rect_height v |}
              (with_viewBox
                 {| vb_x := VNum (rect_x bBox); vb_y := VNum (rect_y bBox);
                    vb_width := VNum (rect_width bBox);
                    vb_height := VNum (rect_height bBox) |}
                 (with_heap h' w))).
Proof.
  intros bBox v.
  unfold _update, bind. rewrite canvas_getBBox_run.
  set (l := fresh (dom (heap w))).
  set (w1 := with_heap _ w).
  assert (H1 : heap w1 !! l = Some bBox).
  { subst w1. cbn. apply lookup_insert_eq. }
  unfold canvas_viewbox, bind, gets, ret.
  rewrite !(read_run w1 l bBox) by assumption.
  cbn [get_field]. rewrite floor_test_width. cbn [andb].
  eexists. reflexivity.
Qed.

(** [_update] never takes the floor branch: the [viewBox] attribute is
    the bounding box of the default layer. *)
Lemma update_uses_bounding_box w :
  exists w' : World C,
    _update w = Some (tt, w')
    /\ svg_viewBox w'
       = Some {| vb_x := VNum (rect_x (getBBox (_canvas w)));
                 vb_y := VNum (rect_y (getBBox (_canvas w)));
                 vb_width := VNum (rect_width (getBBox (_canvas w)));
                 vb_height := VNum (rect_height (getBBox (_canvas w))) |}.
Proof.
  destruct (_update_run w) as [h Hup]. eexists. split; [exact Hup|]. reflexivity.
Qed.

End Runs.

(** ** Geometry *)

Section Geometry.

Context {C : Type} {canvasAPI : CanvasAPI C}.

Implicit Types (w : World C) (b : Rect) (bounds : loc).

Local Open Scope Q_scope.

(** C10, as the code has it.  [fitAspectRatio] works in place: it returns
    the reference it was given, and the record behind that reference is
    overwritten.  When the ratio of the bounds exceeds the target, [y] and
    [height] are replaced and [x] and [width] keep their values; when it is
    below, [x] and [width] are replaced and [y] and [height] keep theirs;
    otherwise the record keeps all four values.  No other record of the
    store and nothing else of the world changes. *)
Theorem fitAspectRatio_in_place w bounds b (r : number) :
  heap w !! bounds = Some b ->
  exists b' : Rect,
    fitAspectRatio bounds r w
    = Some (bounds, with_heap (<[bounds := b']> (heap w)) w)
    /\ (forall l, l <> bounds ->
          (<[bounds := b']> (heap w) : gmap loc Rect) !! l = heap w !! l)
    /\ ((rect_width b / rect_height b >? r)%num = true ->
        rect_x b' = rect_x b /\ rect_width b' = rect_width b
        /\ rect_height b' = (rect_width b * (1 / r))%num
        /\ rect_y b' = (rect_y b - (rect_height b' - rect_height b) / 2)%num)
    /\ ((rect_width b / rect_height b >? r)%num = false ->
        (rect_width b / rect_height b <? r)%num = true ->
        rect_y b' = rect_y b /\ rect_height b' = rect_height b
        /\ rect_width b' = (rect_height b * r)%num
        /\ rect_x b' = (rect_x b - (rect_width b' - rect_width b) / 2)%num)
    /\ ((rect_width b / rect_height b >? r)%num = false ->
        (rect_width b / rect_height b <? r)%num = false ->
        b' = b).
Proof.
  intros Hb. exists (fit_rect b r).
  split; [apply fitAspectRatio_run; assumption|].
  split; [intros l Hl; apply lookup_insert_ne; congruence|].
  unfold fit_rect.
  repeat first [apply conj | intros E1 | intros E2];
    rewrite ?E1, ?E2; try discriminate; repeat split.
Qed.

End Geometry.

(** ** Rounding to binary64

    The operations of the primitive floats are specified by functions on
    mantissas and exponents ([SFadd], [SFsub], [SFmul], [SFdiv]), which
    round through [binary_round_aux].  The lemmas below say what rounding
    does to a positive integer multiple of a power of two, and derive the
    facts about signs and order that the remapping needs. *)

Section Rounding.

Import Binary64.

Local Open Scope Z_scope.

Lemma digits2_pos_bounds (m : positive) :
  2 ^ (Z.pos (digits2_pos m) - 1) <= Z.pos m < 2 ^ Z.pos (digits2_pos m).
Proof.
  induction m as [m IH|m IH|]; cbn [digits2_pos].
  - rewrite Pos2Z.inj_succ, Pos2Z.inj_xI.
    replace (Z.succ (Z.pos (digits2_pos m)) - 1) with (Z.succ (Z.pos (digits2_pos m) - 1)) by lia.
    rewrite !Z.pow_succ_r by lia.
    generalize dependent (2 ^ (Z.pos (digits2_pos m) - 1)).
    generalize (2 ^ Z.pos (digits2_pos m)). intros. lia.
  - rewrite Pos2Z.inj_succ. change (Z.pos m~0) with (2 * Z.pos m).
    replace (Z.succ (Z.pos (digits2_pos m)) - 1) with (Z.succ (Z.pos (digits2_pos m) - 1)) by lia.
    rewrite !Z.pow_succ_r by lia.
    generalize dependent (2 ^ (Z.pos (digits2_pos m) - 1)).
    generalize (2 ^ Z.pos (digits2_pos m)). intros. lia.
  - cbn. lia.
Qed.

Lemma shr_1_m (r : shr_record) : 0 <= shr_m r -> shr_m (shr_1 r) = shr_m r / 2.
Proof.
  destruct r as [m rb sb]. cbn [shr_m]. intros Hm.
  destruct m as [|p|p]; [reflexivity| |lia].
  destruct p as [p|p|]; cbn [shr_1 shr_m].
  - apply (Z.div_unique _ _ _ 1); lia.
  - apply (Z.div_unique _ _ _ 0); lia.
  - reflexivity.
Qed.

Lemma iter_shr_1 (p : positive) :
  forall r : shr_record,
    0 <= shr_m r -> shr_m (SpecFloat.iter_pos shr_1 p r) = shr_m r / 2 ^ Z.pos p.
Proof.
  assert (Hpow : forall q : positive, 0 < 2 ^ Z.pos q) by (intros; apply Z.pow_pos_nonneg; lia).
  induction p as [p IH|p IH|]; intros r Hr; cbn [SpecFloat.iter_pos].
  - assert (H1 : 0 <= shr_m (shr_1 r)).
    { rewrite shr_1_m by assumption. apply Z.div_pos; lia. }
    assert (H2 : 0 <= shr_m (SpecFloat.iter_pos shr_1 p (shr_1 r))).
    { rewrite IH by assumption. apply Z.div_pos; [assumption | apply Hpow]. }
    rewrite IH, IH, shr_1_m by assumption.
    rewrite !Z.div_div by (pose proof (Hpow p); lia).
    f_equal. change (Z.pos p~1) with (2 * Z.pos p + 1).
    replace (2 * Z.pos p + 1) with (1 + Z.pos p + Z.pos p) by lia.
    rewrite !Z.pow_add_r by lia. change (2 ^ 1) with 2. lia.
  - assert (H2 : 0 <= shr_m (SpecFloat.iter_pos shr_1 p r)).
    { rewrite IH by assumption. apply Z.div_pos; [assumption | apply Hpow]. }
    rewrite IH, IH by assumption.
    rewrite !Z.div_div by (pose proof (Hpow p); lia).
    f_equal. change (Z.pos p~0) with (2 * Z.pos p).
    replace (2 * Z.pos p) with (Z.pos p + Z.pos p) by lia.
    rewrite !Z.pow_add_r by lia. reflexivity.
  - apply shr_1_m. assumption.
Qed.

Lemma shr_record_of_loc_m (m : Z) (l : location) : shr_m (shr_record_of_loc m l) = m.
Proof. destruct l as [|[]]; reflexivity. Qed.

Abbreviation fexp := (SpecFloat.fexp prec emax).

(** [shr_fexp] on a positive mantissa: it divides by a power of two. *)
Lemma shr_fexp_spec (m e : Z) (l : location) :
  0 <= m ->
  exists (r : shr_record) (n : Z),
    shr_fexp prec emax m e l = (r, e + n)
    /\ 0 <= n
    /\ e + n = Z.max e (fexp (Zdigits2 m + e))
    /\ shr_m r = m / 2 ^ n.
Proof.
  intros Hm. unfold shr_fexp, shr.
  destruct (fexp (Zdigits2 m + e) - e) as [|p|p] eqn:En.
  - eexists _, 0. rewrite Z.add_0_r. split; [reflexivity|].
    split; [lia|]. split; [lia|].
    rewrite shr_record_of_loc_m. cbn. rewrite Z.div_1_r. reflexivity.
  - eexists _, (Z.pos p). split; [reflexivity|]. split; [lia|]. split; [lia|].
    rewrite iter_shr_1 by (rewrite shr_record_of_loc_m; assumption).
    rewrite shr_record_of_loc_m. reflexivity.
  - eexists _, 0. rewrite Z.add_0_r. split; [reflexivity|].
    split; [lia|]. split; [lia|].
    rewrite shr_record_of_loc_m. cbn. rewrite Z.div_1_r. reflexivity.
Qed.

Lemma Zdigits2_bounds (m : Z) :
  0 < m -> 2 ^ (Zdigits2 m - 1) <= m < 2 ^ Zdigits2 m.
Proof.
  destruct m as [|p|p]; try lia. intros _. apply digits2_pos_bounds.
Qed.

Lemma fexp_ge_emin (e : Z) : emin <= fexp e.
Proof. unfold SpecFloat.fexp. lia. Qed.

(** Above the smallest exponent the shift keeps a positive mantissa
    positive. *)
Lemma shr_fexp_pos (m e : Z) (l : location) :
  0 < m -> emin <= e ->
  exists (r : shr_record) (e' : Z),
    shr_fexp prec emax m e l = (r, e') /\ 0 < shr_m r /\ emin <= e'.
Proof.
  intros Hm He.
  destruct (shr_fexp_spec m e l) as (r & n & Hs & Hn & Hmax & Hr); [lia|].
  exists r, (e + n). split; [exact Hs|]. split; [|lia].
  rewrite Hr. apply Z.div_str_pos. split; [apply Z.pow_pos_nonneg; lia|].
  destruct (Zdigits2_bounds m Hm) as [Hlo _].
  destruct (Z.eq_dec n 0) as [->|Hn0]; [cbn; lia|].
  assert (En : n = Zdigits2 m - prec).
  { unfold SpecFloat.fexp in Hmax. unfold SpecFloat.emin in *. lia. }
  etransitivity; [|exact Hlo].
  apply Z.pow_le_mono_r; [lia|]. subst n. unfold prec. lia.
Qed.

Lemma round_nearest_even_bounds (m : Z) (l : location) :
  m <= round_nearest_even m l <= m + 1.
Proof.
  unfold round_nearest_even. destruct l as [|[]]; try lia.
  destruct (Z.even m); lia.
Qed.

(** Rounding a non-negative mantissa gives a number of the requested
    sign, never [NaN]. *)
Lemma binary_round_aux_sign (sx : bool) (mx ex : Z) (lx : location) :
  0 <= mx ->
  match binary_round_aux prec emax sx mx ex lx with
  | S754_zero s | S754_infinity s | S754_finite s _ _ => s = sx
  | S754_nan => False
  end.
Proof.
  intros Hm. unfold binary_round_aux.
  destruct (shr_fexp_spec mx ex lx Hm) as (r1 & n1 & -> & Hn1 & _ & Hr1).
  assert (H1 : 0 <= shr_m r1).
  { rewrite Hr1. apply Z.div_pos; [assumption | apply Z.pow_pos_nonneg; lia]. }
  pose proof (round_nearest_even_bounds (shr_m r1) (loc_of_shr_record r1)) as Hrne.
  destruct (shr_fexp_spec (round_nearest_even (shr_m r1) (loc_of_shr_record r1))
              (ex + n1) loc_Exact) as (r2 & n2 & -> & Hn2 & _ & Hr2); [lia|].
  assert (H2 : 0 <= shr_m r2).
  { rewrite Hr2. apply Z.div_pos; [lia | apply Z.pow_pos_nonneg; lia]. }
  destruct (shr_m r2) as [|p|p]; [reflexivity| |lia].
  destruct (_ <=? _); reflexivity.
Qed.

(** Above the smallest exponent a positive mantissa does not round to
    zero. *)
Lemma binary_round_aux_pos (sx : bool) (mx ex : Z) (lx : location) :
  0 < mx -> emin <= ex ->
  match binary_round_aux prec emax sx mx ex lx with
  | S754_infinity s | S754_finite s _ _ => s = sx
  | _ => False
  end.
Proof.
  intros Hm He. unfold binary_round_aux.
  destruct (shr_fexp_pos mx ex lx Hm He) as (r1 & e1 & -> & H1 & He1).
  pose proof (round_nearest_even_bounds (shr_m r1) (loc_of_shr_record r1)) as Hrne.
  destruct (shr_fexp_pos (round_nearest_even (shr_m r1) (loc_of_shr_record r1))
              e1 loc_Exact) as (r2 & e2 & -> & H2 & He2); [lia | exact He1 |].
  destruct (shr_m r2) as [|p|p]; [lia| |lia].
  destruct (_ <=? _); reflexivity.
Qed.


(** What validity says of a finite number. *)
Lemma valid_finite (s : bool) (m : positive) (e : Z) :
  valid_binary (S754_finite s m e) = true ->
  emin <= e <= emax - prec
  /\ Z.pos (digits2_pos m) <= prec
  /\ (emin < e -> Z.pos (digits2_pos m) = prec).
Proof.
  cbn [SpecFloat.valid_binary]. unfold bounded, canonical_mantissa.
  intros H. apply andb_prop in H as [Hc He].
  apply Z.eqb_eq in Hc. apply Z.leb_le in He.
  unfold SpecFloat.fexp, SpecFloat.emin in *. lia.
Qed.

Lemma iter_xO (d m : positive) :
  Z.pos (Pos.iter xO m d) = Z.pos m * 2 ^ Z.pos d.
Proof.
  induction d as [|d IH] using Pos.peano_ind.
  - cbn. lia.
  - rewrite Pos.iter_succ, Pos2Z.inj_succ, Z.pow_succ_r by lia.
    change (Z.pos (Pos.iter xO m d)~0) with (2 * Z.pos (Pos.iter xO m d)).
    rewrite IH. lia.
Qed.

(** Aligning to a smaller exponent multiplies by a power of two. *)
Lemma shl_align_spec (m : positive) (e e' : Z) :
  e' <= e ->
  Z.pos (shl_align m e e').1 = Z.pos m * 2 ^ (e - e').
Proof.
  intros He. unfold shl_align.
  destruct (e' - e) as [|d|d] eqn:Ed; cbn [fst].
  - replace (e - e') with 0 by lia. cbn. lia.
  - lia.
  - rewrite iter_xO. f_equal. f_equal. lia.
Qed.

(** The mantissa of a valid number at a smaller exponent is below the
    aligned mantissa of a valid number at a larger one. *)
Lemma mantissa_lt (s1 s2 : bool) (m1 m2 : positive) (e1 e2 : Z) :
  valid_binary (S754_finite s1 m1 e1) = true ->
  valid_binary (S754_finite s2 m2 e2) = true ->
  e1 < e2 ->
  Z.pos m1 < Z.pos m2 * 2 ^ (e2 - e1).
Proof.
  intros H1 H2 He.
  apply valid_finite in H1 as (He1 & Hd1 & _).
  apply valid_finite in H2 as (He2 & _ & Hd2).
  specialize (Hd2 ltac:(lia)).
  pose proof (digits2_pos_bounds m1) as [_ Hm1].
  pose proof (digits2_pos_bounds m2) as [Hm2 _].
  rewrite Hd2 in Hm2.
  assert (Hp1 : 2 ^ Z.pos (digits2_pos m1) <= 2 ^ prec)
    by (apply Z.pow_le_mono_r; lia).
  assert (Hp2 : 2 ^ 1 <= 2 ^ (e2 - e1)) by (apply Z.pow_le_mono_r; lia).
  assert (Hp3 : 2 ^ prec = 2 ^ (prec - 1) * 2 ^ 1) by reflexivity.
  generalize dependent (2 ^ (e2 - e1)). generalize dependent (2 ^ (prec - 1)).
  generalize dependent (2 ^ prec).
  generalize dependent (2 ^ Z.pos (digits2_pos m1)).
  change (2 ^ 1) with 2. intros. nia.
Qed.

(** Comparing two valid finite numbers is comparing their aligned
    mantissas. *)
Lemma SFcompare_aligned (s1 s2 : bool) (m1 m2 : positive) (e1 e2 : Z) :
  valid_binary (S754_finite s1 m1 e1) = true ->
  valid_binary (S754_finite s2 m2 e2) = true ->
  SFcompare (S754_finite s1 m1 e1) (S754_finite s2 m2 e2)
  = Some (aligned s1 m1 e1 (Z.min e1 e2) ?= aligned s2 m2 e2 (Z.min e1 e2)).
Proof.
  intros H1 H2. unfold aligned.
  rewrite !shl_align_spec by lia.
  cbn [SFcompare]. f_equal.
  destruct (Z.compare_spec e1 e2) as [E|E|E].
  - subst e2. rewrite Z.min_id, Z.sub_diag. cbn [Z.pow]. rewrite !Z.mul_1_r.
    change (Pos.compare_cont Eq m1 m2) with (Z.pos m1 ?= Z.pos m2).
    destruct s1, s2; cbn [cond_Zopp]; try reflexivity.
  - pose proof (mantissa_lt _ _ _ _ _ _ H1 H2 E) as Hlt.
    rewrite Z.min_l, Z.sub_diag by lia. cbn [Z.pow]. rewrite Z.mul_1_r.
    destruct s1, s2; cbn [cond_Zopp]; symmetry;
      first [apply Z.compare_lt_iff | apply Z.compare_gt_iff]; lia.
  - pose proof (mantissa_lt _ _ _ _ _ _ H2 H1 E) as Hlt.
    rewrite Z.min_r, Z.sub_diag by lia. cbn [Z.pow]. rewrite Z.mul_1_r.
    destruct s1, s2; cbn [cond_Zopp]; symmetry;
      first [apply Z.compare_lt_iff | apply Z.compare_gt_iff]; lia.
Qed.


Lemma shl_align_exp (m : positive) (e e' : Z) : (shl_align m e e').2 = Z.min e e'.
Proof. unfold shl_align. destruct (e' - e) eqn:E; cbn [snd]; lia. Qed.

Lemma binary_round_pos (s : bool) (m : positive) (e : Z) :
  emin <= e ->
  match binary_round prec emax s m e with
  | S754_infinity s' | S754_finite s' _ _ => s' = s
  | _ => False
  end.
Proof.
  intros He. unfold binary_round.
  pose proof (shl_align_exp m e (fexp (Z.pos (digits2_pos m) + e))) as Hz.
  destruct (shl_align m e _) as [mz ez]. cbn [snd] in Hz.
  apply binary_round_aux_pos; [lia|].
  pose proof (fexp_ge_emin (Z.pos (digits2_pos m) + e)). lia.
Qed.

Lemma positive_sf_cases (f : spec_float) :
  positive_sf f = true ->
  f = S754_infinity false \/ exists m e, f = S754_finite false m e.
Proof.
  destruct f as [s|[]| |[] m e]; try discriminate; intros _; eauto.
Qed.

(** The difference of a larger and a smaller number is positive. *)
Lemma SFsub_pos (fx fy : spec_float) :
  valid_binary fx = true -> valid_binary fy = true ->
  SFltb fx fy = true ->
  positive_sf (SF64sub fy fx) = true.
Proof.
  intros Hx Hy Hlt. unfold SFltb in Hlt.
  destruct fx as [sx|sx| |sx mx ex], fy as [sy|sy| |sy my ey];
    try discriminate; try (destruct sx; try discriminate; reflexivity);
    try (destruct sy; try discriminate; reflexivity);
    try (destruct sx, sy; try discriminate; reflexivity).
  rewrite SFcompare_aligned in Hlt by assumption.
  destruct (_ ?= _) eqn:Ec; try discriminate. rewrite Z.compare_lt_iff in Ec.
  unfold SF64sub, SFsub. rewrite (Z.min_comm ey ex).
  fold (aligned sy my ey (Z.min ex ey)). fold (aligned sx mx ex (Z.min ex ey)).
  destruct (aligned sy my ey (Z.min ex ey) - aligned sx mx ex (Z.min ex ey))
    as [|p|p] eqn:Ed; try lia.
  cbn [binary_normalize].
  apply valid_finite in Hx as (Hex & _). apply valid_finite in Hy as (Hey & _).
  pose proof (binary_round_pos false p (Z.min ex ey) ltac:(lia)) as Hr.
  destruct (binary_round _ _ _ _ _) as [s|s| |s m e]; try contradiction;
    subst s; reflexivity.
Qed.

Lemma SFeqb_refl (f : spec_float) : f <> S754_nan -> SFeqb f f = true.
Proof.
  destruct f as [s|s| |s m e]; intros Hf; try congruence.
  - reflexivity.
  - destruct s; reflexivity.
  - unfold SFeqb. cbn [SFcompare].
    rewrite Z.compare_refl, Pos.compare_cont_refl. destruct s; reflexivity.
Qed.

Lemma SFsub_diag (f : spec_float) :
  finite_sf f = true -> SF64sub f f = S754_zero false.
Proof.
  destruct f as [s|s| |s m e]; try discriminate; intros _.
  - destruct s; reflexivity.
  - unfold SF64sub, SFsub. rewrite Z.sub_diag. reflexivity.
Qed.

(** The lower endpoint of the remapping, on the specification side. *)
Lemma SF_lower_endpoint (a d r o : spec_float) :
  finite_sf a = true -> positive_sf d = true ->
  finite_sf r = true -> finite_sf o = true ->
  SFeqb (SF64add (SF64div (SF64mul (SF64sub a a) r) d) o) o = true.
Proof.
  intros Ha Hd Hr Ho. rewrite SFsub_diag by assumption.
  assert (Hm : exists s, SF64mul (S754_zero false) r = S754_zero s).
  { destruct r as [s|s| |s m e]; try discriminate; eexists; reflexivity. }
  destruct Hm as [s ->].
  assert (Hq : exists s', SF64div (S754_zero s) d = S754_zero s').
  { apply positive_sf_cases in Hd as [->|(m & e & ->)]; eexists; reflexivity. }
  destruct Hq as [s' ->].
  destruct o as [so|so| |so mo eo]; try discriminate.
  - destruct s', so; reflexivity.
  - change (SF64add (S754_zero s') (S754_finite so mo eo)) with (S754_finite so mo eo).
    apply SFeqb_refl. discriminate.
Qed.


Lemma Zdigits2_lt_pow (m k : Z) : 0 < m -> 0 <= k -> m < 2 ^ k -> Zdigits2 m <= k.
Proof.
  intros Hm Hk Hlt.
  destruct (Zdigits2_bounds m Hm) as [Hlo _].
  assert (H : 2 ^ (Zdigits2 m - 1) < 2 ^ k) by lia.
  apply Z.pow_lt_mono_r_iff in H; lia.
Qed.

Lemma digits2_iter_xO (d m : positive) :
  Z.pos (digits2_pos (Pos.iter xO m d)) = Z.pos (digits2_pos m) + Z.pos d.
Proof.
  induction d as [|d IH] using Pos.peano_ind.
  - cbn. lia.
  - rewrite Pos.iter_succ. cbn [digits2_pos]. rewrite Pos2Z.inj_succ, IH. lia.
Qed.

(** How a positive integer [P * 2 ^ e], with [e] not below the smallest
    exponent, is rounded: to the target exponent [e1] with the mantissa
    [m2], one of the two neighbours of the exact quotient; a mantissa that
    reaches [2 ^ prec] moves one exponent up. *)
Lemma binary_round_spec (s : bool) (P : positive) (e : Z) :
  emin <= e ->
  exists m1 m2 : Z,
    let e1 := fexp (Z.pos (digits2_pos P) + e) in
    ((e1 <= e /\ m1 = Z.pos P * 2 ^ (e - e1))
     \/ (e < e1 /\ m1 = Z.pos P / 2 ^ (e1 - e)))
    /\ 0 < m1 < 2 ^ prec
    /\ m1 <= m2 <= m1 + 1
    /\ binary_round prec emax s P e
       = let '(m3, e3) :=
           if m2 <? 2 ^ prec then (m2, e1) else (2 ^ (prec - 1), e1 + 1) in
         if e3 <=? emax - prec then S754_finite s (Z.to_pos m3) e3
         else S754_infinity s.
Proof.
  intros He. cbv zeta.
  assert (Hprec : prec = 53) by reflexivity.
  set (e1 := fexp (Z.pos (digits2_pos P) + e)).
  assert (He1 : emin <= e1) by apply fexp_ge_emin.
  assert (He1' : Z.pos (digits2_pos P) + e - prec <= e1)
    by (subst e1; unfold SpecFloat.fexp; lia).
  pose proof (digits2_pos_bounds P) as [HPlo HPhi].
  unfold binary_round. fold e1.
  (* the aligned mantissa *)
  assert (Hal : exists mz ez,
             shl_align P e e1 = (mz, ez)
             /\ ez = Z.min e e1
             /\ Z.pos mz = Z.pos P * 2 ^ (e - ez)
             /\ Z.pos (digits2_pos mz) + ez = Z.pos (digits2_pos P) + e).
  { unfold shl_align. destruct (e1 - e) as [|d|d] eqn:Ed.
    - exists P, e. split; [reflexivity|]. split; [lia|].
      rewrite Z.sub_diag. cbn. split; lia.
    - exists P, e. split; [reflexivity|]. split; [lia|].
      rewrite Z.sub_diag. cbn. split; lia.
    - exists (Pos.iter xO P d), e1. split; [reflexivity|]. split; [lia|].
      rewrite iter_xO, digits2_iter_xO. split; [f_equal; f_equal; lia | lia]. }
  destruct Hal as (mz & ez & -> & Hez & Hmz & Hdz).
  unfold binary_round_aux.
  destruct (shr_fexp_spec (Z.pos mz) ez loc_Exact ltac:(lia))
    as (r1 & n1 & -> & Hn1 & Hmax1 & Hr1).
  cbn [Zdigits2] in Hmax1. rewrite Hdz in Hmax1. fold e1 in Hmax1.
  assert (Ee1 : ez + n1 = e1) by lia. rewrite Ee1.
  set (m1 := shr_m r1) in *.
  assert (Hm1 : (e1 <= e /\ m1 = Z.pos P * 2 ^ (e - e1))
                \/ (e < e1 /\ m1 = Z.pos P / 2 ^ (e1 - e))).
  { destruct (Z.le_gt_cases e1 e) as [Hle|Hgt].
    - left. split; [exact Hle|].
      assert (E1 : ez = e1) by lia. assert (E2 : n1 = 0) by lia.
      rewrite Hr1, Hmz, E1, E2. cbn [Z.pow]. rewrite Z.div_1_r. reflexivity.
    - right. split; [exact Hgt|].
      assert (E1 : ez = e) by lia.
      rewrite Hr1, Hmz, E1, Z.sub_diag. cbn [Z.pow]. rewrite Z.mul_1_r.
      f_equal. f_equal. lia. }
  assert (Hm1b : 0 < m1 < 2 ^ prec).
  { destruct Hm1 as [[Hle ->]|[Hgt ->]].
    - split; [pose proof (Z.pow_pos_nonneg 2 (e - e1)); nia|].
      assert (Hp : 2 ^ Z.pos (digits2_pos P) * 2 ^ (e - e1) <= 2 ^ prec).
      { rewrite <- Z.pow_add_r by lia. apply Z.pow_le_mono_r; lia. }
      pose proof (Z.pow_pos_nonneg 2 (e - e1) ltac:(lia) ltac:(lia)).
      generalize dependent (2 ^ (e - e1)). generalize dependent (2 ^ prec).
      generalize dependent (2 ^ Z.pos (digits2_pos P)). intros. nia.
    - assert (Ek : e1 - e = Z.pos (digits2_pos P) - prec).
      { subst e1. unfold SpecFloat.fexp in *. unfold SpecFloat.emin in *. lia. }
      rewrite Ek. split.
      + apply Z.div_str_pos. split; [apply Z.pow_pos_nonneg; lia|].
        etransitivity; [|exact HPlo]. apply Z.pow_le_mono_r; unfold prec; lia.
      + apply Z.div_lt_upper_bound; [apply Z.pow_pos_nonneg; lia|].
        rewrite <- Z.pow_add_r by lia.
        replace (Z.pos (digits2_pos P) - prec + prec) with (Z.pos (digits2_pos P)) by lia.
        exact HPhi. }
  pose proof (round_nearest_even_bounds m1 (loc_of_shr_record r1)) as Hrne.
  set (m2 := round_nearest_even m1 (loc_of_shr_record r1)) in *.
  exists m1, m2. split; [exact Hm1|]. split; [exact Hm1b|]. split; [exact Hrne|].
  destruct (shr_fexp_spec m2 e1 loc_Exact ltac:(lia))
    as (r2 & n2 & -> & Hn2 & Hmax2 & Hr2).
  destruct (Z.ltb_spec m2 (2 ^ prec)) as [Hlt|Hge].
  - assert (Hd2 : Zdigits2 m2 <= prec)
      by (apply Zdigits2_lt_pow; [lia | unfold prec; lia | exact Hlt]).
    assert (n2 = 0) by (unfold SpecFloat.fexp in Hmax2; lia). subst n2.
    rewrite Z.add_0_r. rewrite Hr2. cbn [Z.pow]. rewrite Z.div_1_r.
    destruct m2 as [|p2|p2]; try lia. reflexivity.
  - assert (Em2 : m2 = 2 ^ prec) by lia.
    assert (Hd2 : Zdigits2 m2 = prec + 1) by (rewrite Em2; reflexivity).
    assert (n2 = 1) by (unfold SpecFloat.fexp in Hmax2; lia). subst n2.
    rewrite Hr2, Em2. reflexivity.
Qed.


Lemma nonneg_sf_cases (f : spec_float) :
  nonneg_sf f = true ->
  (exists s, f = S754_zero s) \/ f = S754_infinity false
  \/ exists m e, f = S754_finite false m e.
Proof.
  destruct f as [s|[]| |[] m e]; try discriminate; intros _; eauto.
Qed.

Lemma SFleb_refl (f : spec_float) : f <> S754_nan -> SFleb f f = true.
Proof.
  destruct f as [s|s| |s m e]; intros Hf; try congruence.
  - reflexivity.
  - destruct s; reflexivity.
  - unfold SFleb. cbn [SFcompare].
    rewrite Z.compare_refl, Pos.compare_cont_refl. destruct s; reflexivity.
Qed.

(** Adding a positive number to a positive number does not go below the
    latter. *)
Lemma SFadd_ge_pos (mc mo : positive) (ec eo : Z) :
  valid_binary (S754_finite false mc ec) = true ->
  valid_binary (S754_finite false mo eo) = true ->
  SFleb (S754_finite false mo eo)
        (SF64add (S754_finite false mc ec) (S754_finite false mo eo)) = true.
Proof.
  intros Hc Ho.
  assert (Hprec : prec = 53) by reflexivity.
  pose proof (valid_finite _ _ _ Hc) as (Hec & _).
  pose proof (valid_finite _ _ _ Ho) as (Heo & Hdo & Hno).
  unfold SF64add, SFadd. set (ez := Z.min ec eo).
  cbn [cond_Zopp]. rewrite !shl_align_spec by (subst ez; lia).
  set (Mc := Z.pos mc * 2 ^ (ec - ez)). set (Mo := Z.pos mo * 2 ^ (eo - ez)).
  assert (HMc : 0 < Mc) by (subst Mc; pose proof (Z.pow_pos_nonneg 2 (ec - ez)); nia).
  assert (Hpo : 0 < 2 ^ (eo - ez)) by (apply Z.pow_pos_nonneg; subst ez; lia).
  destruct (Mc + Mo) as [|P|P] eqn:ED; try (subst Mo; nia).
  cbn [binary_normalize].
  destruct (binary_round_spec false P ez ltac:(subst ez; lia))
    as (m1 & m2 & Hm1 & Hm1b & Hm2 & ->).
  cbv zeta in Hm1.
  set (e1 := fexp (Z.pos (digits2_pos P) + ez)) in *.
  (* the target exponent is not below the exponent of [o] *)
  pose proof (digits2_pos_bounds mo) as [Hmolo Hmohi].
  pose proof (digits2_pos_bounds P) as [HPlo HPhi].
  assert (HdP : Z.pos (digits2_pos mo) + (eo - ez) <= Z.pos (digits2_pos P)).
  { assert (H : 2 ^ (Z.pos (digits2_pos mo) - 1 + (eo - ez)) < 2 ^ Z.pos (digits2_pos P)).
    { rewrite Z.pow_add_r by (subst ez; lia).
      eapply Z.le_lt_trans; [|exact HPhi]. rewrite <- ED. subst Mo.
      generalize dependent (2 ^ (eo - ez)).
      generalize dependent (2 ^ (Z.pos (digits2_pos mo) - 1)). intros. nia. }
    apply Z.pow_lt_mono_r_iff in H; lia. }
  assert (Ho1 : fexp (Z.pos (digits2_pos mo) + eo) = eo).
  { cbn [SpecFloat.valid_binary] in Ho. unfold bounded in Ho.
    apply andb_prop in Ho as [Ho _]. apply Z.eqb_eq in Ho. exact Ho. }
  assert (He1 : eo <= e1).
  { subst e1. rewrite <- Ho1 at 1. unfold SpecFloat.fexp. lia. }
  assert (Hm1' : Z.pos mo <= m1 \/ eo < e1).
  { destruct (Z.eq_dec e1 eo) as [E|E]; [left | right; lia].
    destruct Hm1 as [[Hle ->]|[Hgt ->]].
    - assert (ez = eo) by (subst ez; lia).
      assert (Emo : Mo = Z.pos mo).
      { subst Mo. replace (eo - ez) with 0 by lia. cbn. lia. }
      rewrite E. replace (ez - eo) with 0 by lia. cbn [Z.pow]. lia.
    - rewrite E. apply Z.div_le_lower_bound; [exact Hpo|].
      rewrite <- ED. subst Mo. lia. }
  unfold SFleb.
  destruct (Z.ltb_spec m2 (2 ^ prec)) as [Hlt|Hge].
  - destruct (Z.leb_spec e1 (emax - prec)); [|reflexivity].
    cbn [SFcompare].
    destruct (Z.compare_spec eo e1) as [E|E|E]; [|reflexivity|lia].
    change (Pos.compare_cont Eq mo (Z.to_pos m2))
      with (Z.pos mo ?= Z.pos (Z.to_pos m2)).
    rewrite Z2Pos.id by lia.
    destruct (Z.compare_spec (Z.pos mo) m2); [reflexivity | reflexivity | lia].
  - destruct (Z.leb_spec (e1 + 1) (emax - prec)); [|reflexivity].
    cbn [SFcompare].
    destruct (Z.compare_spec eo (e1 + 1)) as [E|E|E]; [lia | reflexivity | lia].
Qed.


(** Adding a positive number to a negative number does not go below the
    latter. *)
Lemma SFadd_ge_neg (mc mo : positive) (ec eo : Z) :
  valid_binary (S754_finite false mc ec) = true ->
  valid_binary (S754_finite true mo eo) = true ->
  SFleb (S754_finite true mo eo)
        (SF64add (S754_finite false mc ec) (S754_finite true mo eo)) = true.
Proof.
  intros Hc Ho.
  assert (Hprec : prec = 53) by reflexivity.
  pose proof (valid_finite _ _ _ Hc) as (Hec & _).
  pose proof (valid_finite _ _ _ Ho) as (Heo & Hdo & Hno).
  unfold SF64add, SFadd. set (ez := Z.min ec eo).
  cbn [cond_Zopp]. rewrite !shl_align_spec by (subst ez; lia).
  set (Mc := Z.pos mc * 2 ^ (ec - ez)). set (Mo := Z.pos mo * 2 ^ (eo - ez)).
  assert (HMc : 0 < Mc) by (subst Mc; pose proof (Z.pow_pos_nonneg 2 (ec - ez)); nia).
  assert (Hpo : 0 < 2 ^ (eo - ez)) by (apply Z.pow_pos_nonneg; subst ez; lia).
  destruct (Mc + - Mo) as [|P|P] eqn:ED; cbn [binary_normalize].
  - reflexivity.
  - pose proof (binary_round_pos false P ez ltac:(subst ez; lia)) as Hr.
    destruct (binary_round _ _ _ _ _) as [s|s| |s m e]; try contradiction;
      subst s; reflexivity.
  - destruct (binary_round_spec true P ez ltac:(subst ez; lia))
      as (m1 & m2 & Hm1 & Hm1b & Hm2 & ->).
    cbv zeta in Hm1.
    set (e1 := fexp (Z.pos (digits2_pos P) + ez)) in *.
    pose proof (digits2_pos_bounds mo) as [Hmolo Hmohi].
    pose proof (digits2_pos_bounds P) as [HPlo HPhi].
    assert (He1m : emin <= e1) by apply fexp_ge_emin.
    assert (HP : Z.pos P < Mo) by lia.
    assert (HdP : Z.pos (digits2_pos P) <= Z.pos (digits2_pos mo) + (eo - ez)).
    { assert (H : 2 ^ (Z.pos (digits2_pos P) - 1)
                  < 2 ^ (Z.pos (digits2_pos mo) + (eo - ez))).
      { rewrite Z.pow_add_r by (subst ez; lia).
        eapply Z.le_lt_trans; [exact HPlo|]. eapply Z.lt_trans; [exact HP|].
        subst Mo. generalize dependent (2 ^ (eo - ez)).
        generalize dependent (2 ^ Z.pos (digits2_pos mo)). intros. nia. }
      apply Z.pow_lt_mono_r_iff in H; subst ez; lia. }
    assert (Ho1 : fexp (Z.pos (digits2_pos mo) + eo) = eo).
    { cbn [SpecFloat.valid_binary] in Ho. unfold bounded in Ho.
      apply andb_prop in Ho as [Ho _]. apply Z.eqb_eq in Ho. exact Ho. }
    assert (He1 : e1 <= eo).
    { subst e1. unfold SpecFloat.fexp in *. lia. }
    assert (Hmo : Z.pos mo < 2 ^ prec).
    { eapply Z.lt_le_trans; [exact Hmohi|]. apply Z.pow_le_mono_r; lia. }
    assert (Hm1' : e1 = eo -> m1 < Z.pos mo).
    { intros E. destruct Hm1 as [[Hle ->]|[Hgt ->]].
      - assert (ez = eo) by (subst ez; lia).
        assert (Emo : Mo = Z.pos mo).
        { subst Mo. replace (eo - ez) with 0 by lia. cbn. lia. }
        rewrite E. replace (ez - eo) with 0 by lia. cbn [Z.pow]. lia.
      - rewrite E. apply Z.div_lt_upper_bound; [exact Hpo|].
        subst Mo. lia. }
    unfold SFleb.
    destruct (Z.ltb_spec m2 (2 ^ prec)) as [Hlt|Hge].
    + destruct (Z.leb_spec e1 (emax - prec)); [|lia].
      cbn [SFcompare].
      destruct (Z.compare_spec eo e1) as [E|E|E]; [|lia|reflexivity].
      change (Pos.compare_cont Eq mo (Z.to_pos m2))
        with (Z.pos mo ?= Z.pos (Z.to_pos m2)).
      rewrite Z2Pos.id by lia. specialize (Hm1' ltac:(lia)).
      destruct (Z.compare_spec (Z.pos mo) m2); [reflexivity | lia | reflexivity].
    + assert (He1' : e1 < eo).
      { destruct (Z.eq_dec e1 eo) as [E|E]; [|lia].
        specialize (Hm1' E). lia. }
      destruct (Z.leb_spec (e1 + 1) (emax - prec)); [|lia].
      cbn [SFcompare].
      destruct (Z.compare_spec eo (e1 + 1)) as [E|E|E]; [|lia|reflexivity].
      specialize (Hno ltac:(lia)). rewrite Hno in Hmolo.
      change (Pos.compare_cont Eq mo (Z.to_pos (2 ^ (prec - 1))))
        with (Z.pos mo ?= Z.pos (Z.to_pos (2 ^ (prec - 1)))).
      rewrite Z2Pos.id by reflexivity.
      destruct (Z.compare_spec (Z.pos mo) (2 ^ (prec - 1)));
        [reflexivity | lia | reflexivity].
Qed.

(** Adding a number that is zero or above to a finite number does not go
    below the latter. *)
Lemma SFadd_ge (c o : spec_float) :
  valid_binary c = true -> valid_binary o = true ->
  nonneg_sf c = true -> finite_sf o = true ->
  SFleb o (SF64add c o) = true.
Proof.
  intros Hc Ho Hn Hf.
  apply nonneg_sf_cases in Hn as [[s ->]|[->|(mc & ec & ->)]];
    destruct o as [so|so| |so mo eo]; try discriminate.
  - destruct s, so; reflexivity.
  - change (SF64add (S754_zero s) (S754_finite so mo eo))
      with (S754_finite so mo eo).
    apply SFleb_refl. discriminate.
  - reflexivity.
  - destruct so; reflexivity.
  - reflexivity.
  - destruct so; [apply SFadd_ge_neg | apply SFadd_ge_pos]; assumption.
Qed.

(** The difference of a number and a finite number that is not above it
    is zero or above. *)
Lemma SFsub_nonneg (fx fy : spec_float) :
  valid_binary fx = true -> valid_binary fy = true ->
  finite_sf fx = true ->
  SFleb fx fy = true ->
  nonneg_sf (SF64sub fy fx) = true.
Proof.
  intros Hx Hy Hf Hle. unfold SFleb in Hle.
  destruct fx as [sx|sx| |sx mx ex]; try discriminate;
    destruct fy as [sy|sy| |sy my ey]; try discriminate;
    try (destruct sx, sy; try discriminate; reflexivity);
    try (destruct sx; try discriminate; reflexivity);
    try (destruct sy; try discriminate; reflexivity).
  rewrite SFcompare_aligned in Hle by assumption.
  unfold SF64sub, SFsub. rewrite (Z.min_comm ey ex).
  fold (aligned sy my ey (Z.min ex ey)). fold (aligned sx mx ex (Z.min ex ey)).
  destruct (Z.compare_spec (aligned sx mx ex (Z.min ex ey))
                           (aligned sy my ey (Z.min ex ey))) as [E|E|E];
    try discriminate.
  - rewrite E, Z.sub_diag. reflexivity.
  - destruct (aligned sy my ey (Z.min ex ey) - aligned sx mx ex (Z.min ex ey))
      as [|p|p] eqn:Ed; try lia.
    cbn [binary_normalize].
    apply valid_finite in Hx as (Hex & _). apply valid_finite in Hy as (Hey & _).
    pose proof (binary_round_pos false p (Z.min ex ey) ltac:(lia)) as Hr.
    destruct (binary_round _ _ _ _ _) as [s|s| |s m e]; try contradiction;
      subst s; reflexivity.
Qed.

(** The product and the quotient of a number that is zero or above by a
    positive finite number are zero or above. *)
Lemma SFmul_nonneg (a : spec_float) (m : positive) (e : Z) :
  nonneg_sf a = true ->
  nonneg_sf (SF64mul a (S754_finite false m e)) = true.
Proof.
  intros Ha.
  apply nonneg_sf_cases in Ha as [[s ->]|[->|(ma & ea & ->)]].
  - destruct s; reflexivity.
  - reflexivity.
  - unfold SF64mul, SFmul. cbn [xorb].
    pose proof (binary_round_aux_sign false (Z.pos (ma * m)) (ea + e) loc_Exact
                  ltac:(lia)) as Hr.
    destruct (binary_round_aux _ _ _ _ _ _) as [s|s| |s m' e']; try contradiction;
      subst s; reflexivity.
Qed.

Lemma SFdiv_nonneg (a : spec_float) (m : positive) (e : Z) :
  nonneg_sf a = true ->
  nonneg_sf (SF64div a (S754_finite false m e)) = true.
Proof.
  intros Ha.
  apply nonneg_sf_cases in Ha as [[s ->]|[->|(ma & ea & ->)]].
  - destruct s; reflexivity.
  - reflexivity.
  - unfold SF64div, SFdiv. cbn [xorb].
    destruct (SFdiv_core_binary prec emax (Z.pos ma) ea (Z.pos m) e)
      as [[mz ez] lz] eqn:Ecore.
    assert (Hmz : 0 <= mz).
    { unfold SFdiv_core_binary in Ecore.
      set (m' := match _ - _ - _ with Z.pos _ => _ | Z0 => _ | Z.neg _ => _ end) in Ecore.
      assert (Hm' : 0 <= m').
      { subst m'. destruct (_ - _ - _); [lia | | lia].
        rewrite Z.shiftl_mul_pow2 by lia.
        pose proof (Z.pow_pos_nonneg 2 (Z.pos p) ltac:(lia) ltac:(lia)). nia. }
      pose proof (Z.div_eucl_eq m' (Z.pos m) ltac:(lia)) as Heq.
      pose proof (Z.mod_pos_bound m' (Z.pos m) ltac:(lia)) as Hmod.
      unfold Z.modulo in Hmod.
      destruct (Z.div_eucl m' (Z.pos m)) as [q r].
      injection Ecore as <- _ _. nia. }
    pose proof (binary_round_aux_sign false mz ez lz Hmz) as Hr.
    destruct (binary_round_aux _ _ _ _ _ _) as [s|s| |s m' e']; try contradiction;
      subst s; reflexivity.
Qed.

(** A positive finite number. *)
Lemma positive_finite (f : spec_float) :
  positive_sf f = true -> finite_sf f = true ->
  exists m e, f = S754_finite false m e.
Proof.
  intros Hp Hf. apply positive_sf_cases in Hp as [->|H]; [discriminate | exact H].
Qed.

(** The lower bound of the remapping, on the specification side. *)
Lemma SF_lower_bound (a d r o : spec_float) :
  valid_binary a = true -> valid_binary d = true -> valid_binary o = true ->
  forall q : spec_float,
    valid_binary q = true ->
    q = SF64div (SF64mul a r) d ->
    nonneg_sf a = true ->
    positive_sf d = true -> finite_sf d = true ->
    positive_sf r = true -> finite_sf r = true ->
    finite_sf o = true ->
    SFleb o (SF64add q o) = true.
Proof.
  intros Ha Hd Ho q Hq -> Hna Hpd Hfd Hpr Hfr Hfo.
  destruct (positive_finite d Hpd Hfd) as (md & ed & ->).
  destruct (positive_finite r Hpr Hfr) as (mr & er & ->).
  apply SFadd_ge; try assumption.
  apply SFdiv_nonneg. apply SFmul_nonneg. exact Hna.
Qed.

End Rounding.

(** ** The numeric helpers in double precision *)

Section DoublePrecision.

Context {C : Type} {canvasAPI : CanvasAPI C}.

Implicit Types (w : World C).

Local Open Scope float_scope.

Lemma is_finite_SF (x : float) :
  PrimFloat.is_finite x = Binary64.finite_sf (Prim2SF x).
Proof.
  unfold PrimFloat.is_finite, is_nan, is_infinity.
  rewrite !FloatAxioms.eqb_spec, FloatAxioms.abs_spec.
  change (Prim2SF infinity) with (S754_infinity false).
  destruct (Prim2SF x) as [s|s| |s m e]; try reflexivity.
  - destruct s; reflexivity.
  - unfold SFeqb, SFcompare. cbn [SFabs].
    rewrite Z.compare_refl, Pos.compare_cont_refl. destruct s; reflexivity.
Qed.

Lemma map_lower_endpoint (inMin inMax outMin outMax : float) :
  PrimFloat.is_finite inMin = true -> PrimFloat.is_finite outMin = true ->
  (inMin <? inMax) = true ->
  PrimFloat.is_finite (outMax - outMin) = true ->
  (Binary64.map inMin inMin inMax outMin outMax =? outMin) = true.
Proof.
  intros Ha Ho Hlt Hr. unfold Binary64.map.
  rewrite is_finite_SF in Ha, Ho, Hr.
  rewrite FloatAxioms.ltb_spec in Hlt.
  rewrite FloatAxioms.eqb_spec, add_spec, div_spec, mul_spec, !sub_spec in *.
  apply SF_lower_endpoint; try assumption.
  apply SFsub_pos; [apply Prim2SF_valid | apply Prim2SF_valid | exact Hlt].
Qed.

Lemma map_lower_bound (x inMin inMax outMin outMax : float) :
  PrimFloat.is_finite inMin = true -> PrimFloat.is_finite outMin = true ->
  (inMin <? inMax) = true -> PrimFloat.is_finite (inMax - inMin) = true ->
  (outMin <? outMax) = true -> PrimFloat.is_finite (outMax - outMin) = true ->
  (inMin <=? x) = true ->
  (outMin <=? Binary64.map x inMin inMax outMin outMax) = true.
Proof.
  intros Ha Ho Hin Hfin Hout Hfout Hx. unfold Binary64.map.
  rewrite is_finite_SF in Ha, Ho, Hfin, Hfout.
  rewrite FloatAxioms.ltb_spec in Hin, Hout.
  rewrite FloatAxioms.leb_spec in Hx.
  rewrite FloatAxioms.leb_spec, add_spec.
  rewrite sub_spec in Hfin, Hfout.
  apply (SF_lower_bound (SF64sub (Prim2SF x) (Prim2SF inMin))
           (SF64sub (Prim2SF inMax) (Prim2SF inMin))
           (SF64sub (Prim2SF outMax) (Prim2SF outMin))); try assumption.
  - rewrite <- sub_spec. apply Prim2SF_valid.
  - rewrite <- sub_spec. apply Prim2SF_valid.
  - apply Prim2SF_valid.
  - apply Prim2SF_valid.
  - rewrite div_spec, mul_spec, !sub_spec. reflexivity.
  - apply SFsub_nonneg; try assumption; apply Prim2SF_valid.
  - apply SFsub_pos; try assumption; apply Prim2SF_valid.
  - apply SFsub_pos; try assumption; apply Prim2SF_valid.
Qed.

(** C9, as the code computes it.  In double precision, for finite
    [inMin] and [outMin], [inMin < inMax] and [outMin < outMax] with
    differences that do not overflow, every [x] at or above [inMin] is
    remapped to a number at or above [outMin], and [inMin] is sent to
    [outMin] exactly.  Nothing of the kind holds at the other end: the
    result can exceed [outMax], and [inMax] need not be sent to [outMax]
    (see [map_exceeds_range]). *)
Theorem map_lower_range (x inMin inMax outMin outMax : float) :
  PrimFloat.is_finite inMin = true -> PrimFloat.is_finite outMin = true ->
  (inMin <? inMax) = true -> (outMin <? outMax) = true ->
  PrimFloat.is_finite (inMax - inMin) = true ->
  PrimFloat.is_finite (outMax - outMin) = true ->
  ((inMin <=? x) = true ->
   (outMin <=? Binary64.map x inMin inMax outMin outMax) = true)
  /\ (Binary64.map inMin inMin inMax outMin outMax =? outMin) = true.
Proof.
  intros Ha Ho Hin Hout Hfin Hfout. split.
  - intros Hx. apply map_lower_bound; assumption.
  - apply map_lower_endpoint; assumption.
Qed.

Lemma SFcompare_Eq_sym (a b : spec_float) :
  SFcompare a b = Some Eq -> SFcompare b a = Some Eq.
Proof.
  destruct a as [s1|s1| |s1 m1 e1], b as [s2|s2| |s2 m2 e2]; cbn [SFcompare];
    try discriminate; try (destruct s1, s2; discriminate || reflexivity);
    try (destruct s1; discriminate); try (destruct s2; discriminate);
    try reflexivity.
  destruct s1, s2; try discriminate;
    destruct (Z.compare_spec e1 e2) as [E|E|E]; try discriminate;
    subst e2; rewrite Z.compare_refl; intros H;
    assert (Hm : Pos.compare_cont Eq m1 m2 = Eq)
      by (destruct (Pos.compare_cont Eq m1 m2); try discriminate; reflexivity);
    apply Pos.compare_eq in Hm; subst m2;
    rewrite Pos.compare_cont_refl; reflexivity.
Qed.

Lemma eqb_not_ltb (a b : float) :
  (a =? b) = true -> (a <? b) = false /\ (b <? a) = false.
Proof.
  rewrite FloatAxioms.eqb_spec, !FloatAxioms.ltb_spec. unfold SFeqb, SFltb.
  intros H.
  assert (Hab : SFcompare (Prim2SF a) (Prim2SF b) = Some Eq).
  { destruct (SFcompare (Prim2SF a) (Prim2SF b)) as [[]|]; try discriminate.
    reflexivity. }
  rewrite (SFcompare_Eq_sym _ _ Hab), Hab. split; reflexivity.
Qed.



End DoublePrecision.

(** ** The listeners *)

Section Listeners.

Context {C : Type} {canvasAPI : CanvasAPI C}.

Implicit Types (w : World C) (b : Rect) (bounds : loc).

Local Open Scope Q_scope.

(** The wheel listener, step by step. *)
Lemma on_wheel_run w event :
  let v := get_viewbox (_canvas w) in
  exists (p : Point) (h : gmap loc Rect) (w' : World C),
    let box := {| rect_x := (point_x p - rect_width v / 2)%num;
                  rect_y := (point_y p - rect_height v / 2)%num;
                  rect_width := rect_width v;
                  rect_height := rect_height v |} in
    let zoom := get_zoom (set_viewbox box (_canvas w)) in
    let scale :=
      nmin (nmax (zoom - deltaY event / ZOOM_SMOOTHING)%num MAX_ZOOM) MIN_ZOOM in
    mapClickToDiagramPoint (stopPropagation event) w = Some (p, with_heap h w)
    /\ on_wheel event w = Some (stopPropagation event, w')
    /\ requests w' = SetZoom scale :: SetViewbox box :: requests w
    /\ _canvas w' = set_zoom scale (set_viewbox box (_canvas w))
    /\ _state w' = _state w
    /\ _elementsGroup w' = _elementsGroup w
    /\ _elementRegistry w' = _elementRegistry w.
Proof.
  intros v. unfold on_wheel, bind.
  destruct (mapClickToDiagramPoint_run w (stopPropagation event)) as [h1 H1].
  rewrite H1. rewrite setViewboxCenteredAroundPoint_run.
  unfold canvas_zoom, canvas_zoom_set, bind, gets, modify, ret.
  match goal with |- context [_update ?w3] =>
    destruct (_update_run w3) as [h3 H3]; rewrite H3 end.
  eexists. exists h1. eexists. cbn. repeat apply conj; reflexivity.
Qed.

(** The listener of pointer moves while a drag is active. *)
Lemma on_mousemove_run w event :
  isDragging (_state w) = true ->
  let v := get_viewbox (_canvas w) in
  exists (p : Point) (h : gmap loc Rect) (w' : World C),
    let box := {| rect_x := (point_x p - rect_width v / 2)%num;
                  rect_y := (point_y p - rect_height v / 2)%num;
                  rect_width := rect_width v;
                  rect_height := rect_height v |} in
    mapClickToDiagramPoint event w = Some (p, with_heap h w)
    /\ on_mousemove event w = Some (event, w')
    /\ requests w' = SetViewbox box :: requests w
    /\ _canvas w' = set_viewbox box (_canvas w)
    /\ _state w' = _state w
    /\ _elementsGroup w' = _elementsGroup w
    /\ _elementRegistry w' = _elementRegistry w.
Proof.
  intros Hdrag v. unfold on_mousemove, bind, gets. rewrite Hdrag.
  destruct (mapClickToDiagramPoint_run w event) as [h1 H1].
  rewrite H1. rewrite setViewboxCenteredAroundPoint_run.
  match goal with |- context [_update ?w3] =>
    destruct (_update_run w3) as [h3 H3]; rewrite H3 end.
  eexists. exists h1. eexists. cbn. repeat apply conj; reflexivity.
Qed.

Lemma on_click_run w event :
  exists w' : World C,
    on_click event w = Some (event, w')
    /\ _state w' = _state w
    /\ _elementsGroup w' = _elementsGroup w
    /\ _elementRegistry w' = _elementRegistry w.
Proof.
  unfold on_click, bind.
  destruct (mapClickToDiagramPoint_run w event) as [h1 H1].
  rewrite H1. rewrite setViewboxCenteredAroundPoint_run.
  match goal with |- context [_update ?w3] =>
    destruct (_update_run w3) as [h3 H3]; rewrite H3 end.
  eexists. cbn. repeat apply conj; reflexivity.
Qed.

Lemma nmax_fin (a b : Q) :
  exists q : Q, nmax (Fin a) (Fin b) = Fin q /\ q == Qmax a b.
Proof.
  unfold nmax.
  destruct (nlt_fin_spec a b) as [[E H]|[E H]]; rewrite E; eexists;
    (split; [reflexivity|]).
  - rewrite Q.max_r; lra.
  - rewrite Q.max_l; lra.
Qed.

Lemma nmin_fin (a b : Q) :
  exists q : Q, nmin (Fin a) (Fin b) = Fin q /\ q == Qmin a b.
Proof.
  unfold nmin.
  destruct (nlt_fin_spec b a) as [[E H]|[E H]]; rewrite E; eexists;
    (split; [reflexivity|]).
  - rewrite Q.min_r; lra.
  - rewrite Q.min_l; lra.
Qed.


(** C5, as the code has it.  While a drag is active, a pointer move asks
    the canvas for a viewbox centred on the diagram point under the
    pointer whose width and height are those of the viewbox the canvas
    reports at the time of the move; the snapshot taken at pointer-down is
    not consulted.  The size therefore equals the snapshot's whenever the
    canvas still reports a viewbox of the snapshot's size. *)
Theorem on_mousemove_recenters w event :
  isDragging (_state w) = true ->
  exists (p : Point) (h : gmap loc Rect) (box : Rect) (w' : World C),
    mapClickToDiagramPoint event w = Some (p, with_heap h w)
    /\ on_mousemove event w = Some (event, w')
    /\ requests w' = SetViewbox box :: requests w
    /\ rect_width box = rect_width (get_viewbox (_canvas w))
    /\ rect_height box = rect_height (get_viewbox (_canvas w))
    /\ rect_x box = (point_x p - rect_width box / 2)%num
    /\ rect_y box = (point_y p - rect_height box / 2)%num
    /\ (forall snapshot : Rect,
          cachedViewbox (_state w) = Obj snapshot ->
          rect_width (get_viewbox (_canvas w)) = rect_width snapshot ->
          rect_height (get_viewbox (_canvas w)) = rect_height snapshot ->
          rect_width box = rect_width snapshot
          /\ rect_height box = rect_height snapshot)
    /\ _state w' = _state w.
Proof.
  intros Hdrag.
  destruct (on_mousemove_run w event Hdrag)
    as (p & h & w' & Hp & Hrun & Hreq & _ & Hst & _).
  exists p, h. eexists. exists w'.
  split; [exact Hp|]. split; [exact Hrun|]. split; [exact Hreq|].
  cbn. repeat apply conj; try reflexivity; try assumption.
  intros snapshot _ Hw Hh. split; assumption.
Qed.

(** C6, as the code has it.  The wheel listener stops the propagation of
    the event; it leaves the event's default action as it found it. *)
Theorem on_wheel_stops_propagation w event :
  exists (e' : Event) (w' : World C),
    on_wheel event w = Some (e', w')
    /\ propagationStopped e' = true
    /\ defaultPrevented e' = defaultPrevented event.
Proof.
  destruct (on_wheel_run w event) as (p & h & w' & _ & Hrun & _).
  exists (stopPropagation event), w'.
  split; [exact Hrun|]. split; reflexivity.
Qed.

End Listeners.

(** ** The drag state *)

Section Drag.

Context {C : Type} {canvasAPI : CanvasAPI C}.

Implicit Types (w : World C) (b : Rect) (bounds : loc).

Lemma run_cons (i : Input) (inputs : list Input) w :
  run (i :: inputs) w
  = match deliver i w with
    | Some (_, w') => run inputs w'
    | None => None
    end.
Proof. reflexivity. Qed.

Lemma exec_run_app (l1 l2 : list Input) w :
  exec (run (l1 ++ l2)) w
  = match exec (run l1) w with
    | Some w' => exec (run l2) w'
    | None => None
    end.
Proof.
  revert w. induction l1 as [|i l1 IH]; intros w; [reflexivity|].
  cbn [app]. unfold exec in *. rewrite !run_cons.
  destruct (deliver i w) as [[[] w1]|]; [apply IH | reflexivity].
Qed.

Lemma deliver_pointer (i : Input) w :
  is_pointer i = true ->
  exists w' : World C,
    deliver i w = Some (tt, w')
    /\ _state w' = pointer_state i w
    /\ _elementsGroup w' = _elementsGroup w
    /\ _elementRegistry w' = _elementRegistry w.
Proof.
  destruct i as [e|e|e|e|e| | | |]; try discriminate; intros _;
    unfold deliver, modify, bind; cbn [authority handle pointer_state].
  - destruct (on_click_run w e) as (w' & Hrun & Hst).
    unfold bind. rewrite Hrun. eexists. split; [reflexivity | exact Hst].
  - eexists. repeat split; reflexivity.
  - unfold bind. destruct (isDragging (_state w)) eqn:Hd.
    + destruct (on_mousemove_run w e Hd) as (p & h & w' & _ & Hrun & _ & _ & Hst).
      rewrite Hrun. eexists. split; [reflexivity | exact Hst].
    + unfold on_mousemove, bind, gets. rewrite Hd.
      eexists. repeat split; reflexivity.
  - eexists. repeat split; reflexivity.
  - destruct (on_wheel_run w e) as (p & h & w' & _ & Hrun & _ & _ & Hst).
    unfold bind. rewrite Hrun. eexists. split; [reflexivity | exact Hst].
Qed.

Lemma pointer_state_consistent (i : Input) w :
  drag_consistent (_state w) -> drag_consistent (pointer_state i w).
Proof.
  intros Hinv. destruct i; try exact Hinv; cbn; unfold drag_consistent; cbn;
    split; split; intros; congruence.
Qed.

Lemma run_pointers_total (inputs : list Input) w :
  forallb is_pointer inputs = true ->
  exists w' : World C, exec (run inputs) w = Some w'.
Proof.
  revert w. induction inputs as [|i inputs IH]; intros w Hall.
  - exists w. reflexivity.
  - cbn in Hall. apply andb_prop in Hall as [Hi Hall].
    destruct (deliver_pointer i w Hi) as (w1 & Hrun & _).
    destruct (IH w1 Hall) as (w2 & Hrest).
    exists w2. unfold exec in *. rewrite run_cons, Hrun. exact Hrest.
Qed.

Lemma run_pointers (inputs : list Input) w :
  forallb is_pointer inputs = true ->
  drag_consistent (_state w) ->
  exists w' : World C,
    exec (run inputs) w = Some w' /\ drag_consistent (_state w').
Proof.
  revert w. induction inputs as [|i inputs IH]; intros w Hall Hinv.
  - exists w. split; [reflexivity | exact Hinv].
  - cbn in Hall. apply andb_prop in Hall as [Hi Hall].
    destruct (deliver_pointer i w Hi) as (w1 & Hrun & Hst & _).
    destruct (IH w1 Hall) as (w' & Hrest & Hinv').
    { rewrite Hst. apply pointer_state_consistent. exact Hinv. }
    exists w'. split; [|exact Hinv'].
    unfold exec in *. rewrite run_cons, Hrun. exact Hrest.
Qed.

(** C8. The drag fields hold objects exactly while [isDragging] is true:
    this holds of the state the constructor sets up and after every
    sequence of pointer inputs, each of which is handled to completion.
    Pointer-down leaves [isDragging] true with a viewbox in
    [cachedViewbox]; a pointer-up after any number of pointer moves leaves
    [isDragging] false and [cachedViewbox] null. *)
Theorem drag_state_lifecycle (canvas : C) (registry : gmap string Gfx)
    (layout : Rect) :
  let w0 := Minimap canvas registry layout in
  drag_consistent (_state w0)
  /\ (forall inputs : list Input,
        forallb is_pointer inputs = true ->
        exists w : World C,
          exec (run inputs) w0 = Some w /\ drag_consistent (_state w))
  /\ (forall (w : World C) (down : Event),
        exists w' : World C,
          exec (deliver (MouseDown down)) w = Some w'
          /\ isDragging (_state w') = true
          /\ cachedViewbox (_state w') = Obj (get_viewbox (_canvas w))
          /\ is_obj (initialDragPosition (_state w')) = true)
  /\ (forall (w : World C) (down up : Event) (moves : list Event),
        exists w' : World C,
          exec (run (MouseDown down :: (MouseMove <$> moves) ++ [MouseUp up])) w
          = Some w'
          /\ isDragging (_state w') = false
          /\ cachedViewbox (_state w') = Null
          /\ initialDragPosition (_state w') = Null).
Proof.
  intros w0. split; [|split; [|split]].
  - unfold drag_consistent. cbn. split; split; intros; congruence.
  - intros inputs Hall. apply run_pointers; [exact Hall|].
    unfold drag_consistent. cbn. split; split; intros; congruence.
  - intros w down.
    destruct (deliver_pointer (MouseDown down) w eq_refl) as (w' & Hrun & Hst & _).
    exists w'. unfold exec. rewrite Hrun, Hst. cbn. auto.
  - intros w down up moves.
    change (MouseDown down :: (MouseMove <$> moves) ++ [MouseUp up])
      with ((MouseDown down :: (MouseMove <$> moves)) ++ [MouseUp up]).
    rewrite exec_run_app.
    assert (Hall : forallb is_pointer (MouseDown down :: (MouseMove <$> moves)) = true).
    { cbn. induction moves; [reflexivity | assumption]. }
    destruct (run_pointers_total _ w Hall) as (w1 & ->).
    destruct (deliver_pointer (MouseUp up) w1 eq_refl) as (w' & Hrun & Hst & _).
    exists w'. unfold exec. rewrite run_cons, Hrun. cbn.
    rewrite Hst. cbn. auto.
Qed.

End Drag.

(** ** Nodes by id *)

Section NodesById.

Implicit Types (nodes : list MirrorNode) (elementId : string).

Lemma SvgNode_forall_ind (P : SvgNode -> Prop) :
  (forall n, Forall P (childNodes n) -> P n) -> forall n, P n.
Proof.
  intros H. fix IH 1. intros [c i m cs]. apply H. cbn.
  induction cs as [|x cs IHcs]; constructor; [apply IH | exact IHcs].
Qed.

Lemma node_path_unfold elementId (n : SvgNode) :
  node_path elementId n
  = if has_id elementId (id_attr n) then Some []
    else forest_path elementId (childNodes n) O.
Proof.
  destruct n as [c i m cs]. cbn [node_path id_attr childNodes].
  destruct (has_id elementId i); [reflexivity|].
  generalize O. induction cs as [|x cs IH]; intros k; [reflexivity|].
  cbn [forest_path]. destruct (node_path elementId x); [reflexivity | apply IH].
Qed.

Lemma subtree_ids_unfold (n : SvgNode) :
  subtree_ids n
  = match id_attr n with Some s => [s] | None => [] end
    ++ flat_map subtree_ids (childNodes n).
Proof. destruct n; reflexivity. Qed.

Lemma has_id_true elementId (attr : option string) :
  has_id elementId attr = true <-> attr = Some elementId.
Proof.
  destruct attr as [s|]; cbn; [|split; discriminate].
  rewrite String.eqb_eq. split; congruence.
Qed.

(** An id that no node of a subtree carries is not found in it. *)
Lemma node_path_None elementId (n : SvgNode) :
  elementId ∉ subtree_ids n -> node_path elementId n = None.
Proof.
  revert n. apply (SvgNode_forall_ind (fun n =>
    elementId ∉ subtree_ids n -> node_path elementId n = None)).
  intros n IH Hid. rewrite subtree_ids_unfold in Hid.
  apply not_elem_of_app in Hid as [Hown Hsub].
  rewrite node_path_unfold.
  destruct (has_id elementId (id_attr n)) eqn:E.
  { apply has_id_true in E. rewrite E in Hown.
    exfalso. apply Hown. apply list_elem_of_here. }
  generalize O. induction IH as [|c l Hc _ IHl]; intros k; [reflexivity|].
  cbn [flat_map] in Hsub. apply not_elem_of_app in Hsub as [H1 H2].
  cbn [forest_path]. rewrite Hc by exact H1. apply IHl. exact H2.
Qed.

Lemma forest_path_None elementId (l : list SvgNode) (k : nat) :
  elementId ∉ flat_map subtree_ids l -> forest_path elementId l k = None.
Proof.
  revert k. induction l as [|c l IH]; intros k Hid; [reflexivity|].
  cbn [flat_map] in Hid. apply not_elem_of_app in Hid as [H1 H2].
  cbn [forest_path]. rewrite node_path_None by exact H1. apply IH. exact H2.
Qed.

(** An id that some node of a subtree carries is found in it. *)
Lemma node_path_Some elementId (n : SvgNode) :
  elementId ∈ subtree_ids n -> exists p, node_path elementId n = Some p.
Proof.
  revert n. apply (SvgNode_forall_ind (fun n =>
    elementId ∈ subtree_ids n -> exists p, node_path elementId n = Some p)).
  intros n IH Hid. rewrite subtree_ids_unfold in Hid.
  rewrite node_path_unfold.
  destruct (has_id elementId (id_attr n)) eqn:E; [eauto|].
  apply elem_of_app in Hid as [Hown|Hsub].
  { destruct (id_attr n) as [s|]; [|apply not_elem_of_nil in Hown; contradiction].
    apply list_elem_of_singleton in Hown. subst s.
    cbn in E. rewrite String.eqb_refl in E. discriminate. }
  generalize O. induction IH as [|c l Hc _ IHl]; intros k.
  { apply not_elem_of_nil in Hsub. contradiction. }
  cbn [forest_path]. destruct (node_path elementId c) as [p|] eqn:Ec; [eauto|].
  cbn [flat_map] in Hsub. apply elem_of_app in Hsub as [H1|H2].
  - destruct (Hc H1) as [p Hp]. congruence.
  - apply IHl. exact H2.
Qed.

Lemma forest_path_Some elementId (l : list SvgNode) (k : nat) :
  elementId ∈ flat_map subtree_ids l ->
  exists j p, forest_path elementId l k = Some (j :: p).
Proof.
  revert k. induction l as [|c l IH]; intros k Hid.
  { apply not_elem_of_nil in Hid. contradiction. }
  cbn [forest_path]. destruct (node_path elementId c) as [p|] eqn:Ec; [eauto|].
  cbn [flat_map] in Hid. apply elem_of_app in Hid as [H1|H2].
  - destruct (node_path_Some _ _ H1) as [p Hp]. congruence.
  - apply IH. exact H2.
Qed.

Lemma inner_ids_cons (n : MirrorNode) nodes :
  inner_ids (n :: nodes) = visual_ids (mirror_visual n) ++ inner_ids nodes.
Proof. reflexivity. Qed.

Lemma inner_ids_app nodes nodes' :
  inner_ids (nodes ++ nodes') = inner_ids nodes ++ inner_ids nodes'.
Proof. apply flat_map_app. Qed.

Lemma layer_path_None elementId nodes :
  layer_path elementId nodes = None -> elementId ∉ mirror_id <$> nodes.
Proof.
  induction nodes as [|n nodes IH]; cbn [layer_path]; intros H.
  - apply not_elem_of_nil.
  - destruct (String.eqb_spec (mirror_id n) elementId) as [E|E]; [discriminate|].
    destruct (forest_path _ _ _); [discriminate|].
    destruct (layer_path elementId nodes) as [[k p]|]; [discriminate|].
    rewrite fmap_cons. apply not_elem_of_cons.
    split; [congruence | apply IH; reflexivity].
Qed.

(** Where no copied node carries the id, the search finds the first clone
    that carries it. *)
Lemma layer_path_Some elementId nodes (k : nat) (p : list nat) :
  elementId ∉ inner_ids nodes ->
  layer_path elementId nodes = Some (k, p) ->
  p = []
  /\ exists (before after : list MirrorNode) (n : MirrorNode),
       nodes = before ++ n :: after
       /\ length before = k
       /\ mirror_id n = elementId
       /\ (elementId ∉ mirror_id <$> before)
       /\ delete k nodes = before ++ after.
Proof.
  revert k. induction nodes as [|n nodes IH]; intros k Hin H; [discriminate|].
  rewrite inner_ids_cons in Hin. apply not_elem_of_app in Hin as [Hn Hin].
  cbn [layer_path] in H.
  destruct (String.eqb_spec (mirror_id n) elementId) as [E|E].
  - injection H as <- <-. split; [reflexivity|]. exists [], nodes, n.
    repeat split; [assumption | apply not_elem_of_nil].
  - unfold visual_ids in Hn. rewrite forest_path_None in H by exact Hn.
    destruct (layer_path elementId nodes) as [[j q]|] eqn:Hj; [|discriminate].
    injection H as <- <-.
    destruct (IH j Hin eq_refl)
      as (-> & before & after & m & -> & Hlen & Hm & Hnot & Hdel).
    split; [reflexivity|].
    exists (n :: before), after, m. cbn [length].
    repeat split; try assumption.
    + congruence.
    + rewrite fmap_cons. apply not_elem_of_cons. split; [congruence | assumption].
    + change (n :: delete j (before ++ m :: after) = n :: (before ++ after)).
      rewrite Hdel. reflexivity.
Qed.

Lemma layer_path_absent elementId nodes :
  elementId ∉ mirror_id <$> nodes -> elementId ∉ inner_ids nodes ->
  layer_path elementId nodes = None.
Proof.
  induction nodes as [|n nodes IH]; intros Hid Hin; [reflexivity|].
  rewrite fmap_cons in Hid. apply not_elem_of_cons in Hid as [Hn Hid].
  rewrite inner_ids_cons in Hin. apply not_elem_of_app in Hin as [Hv Hin].
  cbn [layer_path].
  destruct (String.eqb_spec (mirror_id n) elementId) as [E|E]; [congruence|].
  unfold visual_ids in Hv. rewrite forest_path_None by exact Hv.
  rewrite IH by assumption. reflexivity.
Qed.

(** The first clone with the id is found when no copied node before it
    carries the id; what the clone itself and the clones after it hold
    does not matter. *)
Lemma layer_path_clone elementId (before after : list MirrorNode)
    (n : MirrorNode) :
  elementId ∉ mirror_id <$> before -> elementId ∉ inner_ids before ->
  mirror_id n = elementId ->
  layer_path elementId (before ++ n :: after) = Some (length before, []).
Proof.
  intros Hid Hin Hn. induction before as [|m before IH]; cbn [app layer_path length].
  - rewrite Hn, String.eqb_refl. reflexivity.
  - rewrite fmap_cons in Hid. apply not_elem_of_cons in Hid as [Hm Hid].
    rewrite inner_ids_cons in Hin. apply not_elem_of_app in Hin as [Hv Hin].
    destruct (String.eqb_spec (mirror_id m) elementId) as [E|E]; [congruence|].
    unfold visual_ids in Hv. rewrite forest_path_None by exact Hv.
    rewrite IH by assumption. reflexivity.
Qed.

(** A copied node that carries the id, below a clone that comes before
    every clone with the id, is found instead of a clone. *)
Lemma layer_path_inner elementId (before rest : list MirrorNode) :
  elementId ∉ mirror_id <$> before -> elementId ∈ inner_ids before ->
  exists (k j : nat) (p : list nat),
    layer_path elementId (before ++ rest) = Some (k, j :: p)
    /\ (k < length before)%nat.
Proof.
  induction before as [|m before IH]; intros Hid Hin.
  { apply not_elem_of_nil in Hin. contradiction. }
  rewrite fmap_cons in Hid. apply not_elem_of_cons in Hid as [Hm Hid].
  cbn [app layer_path length].
  destruct (String.eqb_spec (mirror_id m) elementId) as [E|E]; [congruence|].
  destruct (forest_path elementId (childNodes (mirror_visual m)) 0)
    as [p|] eqn:Ep.
  - rewrite inner_ids_cons in Hin.
    destruct (decide (elementId ∈ visual_ids (mirror_visual m))) as [Hv|Hv].
    + destruct (forest_path_Some _ _ O Hv) as (j & q & Hq).
      rewrite Hq in Ep. injection Ep as <-.
      exists O, j, q. split; [reflexivity | lia].
    + unfold visual_ids in Hv. rewrite forest_path_None in Ep by exact Hv.
      discriminate.
  - rewrite inner_ids_cons in Hin. apply elem_of_app in Hin as [Hv|Hin].
    + destruct (forest_path_Some _ _ O Hv) as (j & q & Hq). congruence.
    + destruct (IH Hid Hin) as (k & j & q & -> & Hk).
      exists (S k), j, q. split; [reflexivity | lia].
Qed.

(** Taking out a copied node leaves every clone in place. *)
Lemma svgRemove_inner (k j : nat) (p : list nat) nodes :
  mirror_id <$> svgRemove (k, j :: p) nodes = mirror_id <$> nodes.
Proof.
  cbn [svgRemove]. revert k. induction nodes as [|n nodes IH]; intros k.
  - reflexivity.
  - destruct k as [|k]; cbn [alter list_alter]; rewrite !fmap_cons.
    + reflexivity.
    + f_equal. apply IH.
Qed.

Lemma ids_without (before after : list MirrorNode) (n : MirrorNode) :
  NoDup (mirror_id <$> before ++ n :: after) ->
  NoDup (mirror_id <$> before ++ after)
  /\ (forall x : string,
        x ∈ mirror_id <$> before ++ after
        <-> x ∈ mirror_id <$> before ++ n :: after /\ x <> mirror_id n).
Proof.
  rewrite !fmap_app, fmap_cons. intros Hnd.
  apply NoDup_app in Hnd as (Hb & Hdisj & Hna).
  apply NoDup_cons in Hna as [Hn Ha].
  split.
  - apply NoDup_app. split; [exact Hb|]. split; [|exact Ha].
    intros x Hx Hx'. apply (Hdisj x Hx). apply list_elem_of_further. exact Hx'.
  - intros x. rewrite !elem_of_app, elem_of_cons. split.
    + intros [Hx|Hx].
      * split; [left; exact Hx|]. intros ->.
        apply (Hdisj _ Hx). apply list_elem_of_here.
      * split; [right; right; exact Hx|]. intros ->. contradiction.
    + intros [[Hx|[Hx|Hx]] Hne]; [left; exact Hx | contradiction | right; exact Hx].
Qed.

End NodesById.

(** ** The mirror of the registry *)

Section Mirror.

Context {C : Type} {canvasAPI : CanvasAPI C}.

Implicit Types (w : World C) (b : Rect) (bounds : loc).

Lemma synced_ext reg pend inner w w' :
  _elementsGroup w' = _elementsGroup w ->
  _elementRegistry w' = _elementRegistry w ->
  synced reg pend inner w -> synced reg pend inner w'.
Proof.
  unfold synced, registry_ids, mirror_ids. intros -> ->. auto.
Qed.

Lemma addElement_run w element (visual : SvgNode) :
  exists clone : MirrorNode,
    addElement element (Some visual) w
    = Some (clone, with_elementsGroup (_elementsGroup w ++ [clone]) w)
    /\ mirror_id clone = el_id element
    /\ mirror_visual clone = visual.
Proof.
  exists {| mirror_id := el_id element;
            mirror_transform :=
              if negb (isConnection element)
              then Some (el_x element, el_y element) else None;
            mirror_visual := visual |}.
  repeat split.
Qed.

(** Where no copied node carries the element's id, [removeElement] takes
    out the clone of the element, if there is one. *)
Lemma removeElement_run w element :
  NoDup (mirror_ids w) ->
  (el_id element ∉ inner_ids (_elementsGroup w)) ->
  (el_id element = ""%string -> ""%string ∉ mirror_ids w) ->
  exists nodes : list MirrorNode,
    removeElement element w = Some (tt, with_elementsGroup nodes w)
    /\ NoDup (mirror_id <$> nodes)
    /\ (list_to_set (mirror_id <$> nodes) : gset string)
       = list_to_set (mirror_ids w) ∖ {[el_id element]}
    /\ (forall x : string,
          x ∈ inner_ids nodes -> x ∈ inner_ids (_elementsGroup w)).
Proof.
  intros Hnd Hin Hne. unfold removeElement, getElementById, bind, gets, mirror_ids in *.
  assert (Hkeep : forall nodes : list MirrorNode,
            nodes = _elementsGroup w ->
            el_id element ∉ mirror_id <$> nodes ->
            Some (tt, w) = Some (tt, with_elementsGroup nodes w)
            /\ NoDup (mirror_id <$> nodes)
            /\ (list_to_set (mirror_id <$> nodes) : gset string)
               = list_to_set (mirror_id <$> _elementsGroup w) ∖ {[el_id element]}
            /\ (forall x : string,
                  x ∈ inner_ids nodes -> x ∈ inner_ids (_elementsGroup w))).
  { intros nodes -> Hout. split; [|split; [exact Hnd|split; [|auto]]].
    - f_equal. f_equal. destruct w; reflexivity.
    - apply set_eq. intros x.
      rewrite elem_of_difference, !elem_of_list_to_set, elem_of_singleton.
      split; [intros Hx; split; [exact Hx | congruence] | tauto]. }
  destruct (String.eqb_spec (el_id element) "") as [E|E].
  { exists (_elementsGroup w). apply Hkeep; [reflexivity|].
    rewrite E. exact (Hne E). }
  destruct (layer_path (el_id element) (_elementsGroup w)) as [[k p]|] eqn:Hk.
  - destruct (layer_path_Some _ _ _ _ Hin Hk)
      as (-> & before & after & n & Hsplit & _ & Hn & _ & Hdel).
    cbn [svgRemove]. rewrite Hdel. rewrite Hsplit in Hnd |- *.
    destruct (ids_without before after n Hnd) as [Hnd' Hmem].
    exists (before ++ after). split; [reflexivity|]. split; [exact Hnd'|]. split.
    + apply set_eq. intros x.
      rewrite elem_of_difference, !elem_of_list_to_set, Hmem, elem_of_singleton, Hn.
      reflexivity.
    + intros x. rewrite !inner_ids_app, inner_ids_cons, !elem_of_app. tauto.
  - apply layer_path_None in Hk.
    exists (_elementsGroup w). apply Hkeep; [reflexivity | exact Hk].
Qed.

(** One round of the bulk change: drop the clone, add a new one when
    the registry still has graphics for the element. *)
Lemma resync_run reg pend inner w (elements : list Element)
    (f : Element -> M C unit) :
  f = (fun element =>
         bind (removeElement element) (fun _ =>
         bind (gets (fun w => _elementRegistry w !! el_id element)) (fun gfx =>
         match gfx with
         | Some gfx =>
             bind (addElement element (getDjsVisual gfx)) (fun _ => ret tt)
         | None => ret tt
         end))) ->
  synced reg pend inner w ->
  (list_to_set (el_id <$> elements) : gset string) ## inner ->
  exists nodes : list MirrorNode,
    forEach elements f w = Some (tt, with_elementsGroup nodes w)
    /\ synced reg (pend ∖ list_to_set (el_id <$> elements)) inner
         (with_elementsGroup nodes w).
Proof.
  intros ->. revert pend w.
  induction elements as [|element elements IH]; intros pend w Hs Hclear.
  - exists (_elementsGroup w). cbn [forEach]. unfold ret.
    replace (with_elementsGroup (_elementsGroup w) w) with w
      by (destruct w; reflexivity).
    split; [reflexivity|].
    replace (pend ∖ list_to_set (el_id <$> [])) with pend
      by (rewrite fmap_nil, list_to_set_nil; clear; set_solver).
    exact Hs.
  - destruct Hs as (Hreg & Hnd & Hset & Hdisj & Hvis & Hne & Hin & Hgfx).
    rewrite fmap_cons, list_to_set_cons in Hclear.
    assert (Hid : el_id element ∉ inner) by (clear -Hclear; set_solver).
    assert (Hrest : (list_to_set (el_id <$> elements) : gset string) ## inner)
      by (clear -Hclear; set_solver).
    assert (Hid' : el_id element ∉ inner_ids (_elementsGroup w)).
    { intros Hx. apply Hid. apply Hin. apply elem_of_list_to_set. exact Hx. }
    assert (Hne' : ""%string ∉ mirror_ids w).
    { intros Hx. apply Hne. rewrite <- Hset. apply elem_of_list_to_set. exact Hx. }
    destruct (removeElement_run w element Hnd Hid' (fun _ => Hne'))
      as (nodes1 & Hrm & Hnd1 & Hset1 & Hin1).
    cbn [forEach]. unfold bind at 1. unfold bind at 1. rewrite Hrm.
    unfold bind at 1. unfold gets at 1. cbn [_elementRegistry with_elementsGroup].
    assert (Hstep : exists nodes2 : list MirrorNode,
      match _elementRegistry w !! (el_id element) with
      | Some gfx => bind (addElement element (getDjsVisual gfx)) (fun _ => ret tt)
      | None => ret tt
      end (with_elementsGroup nodes1 w) = Some (tt, with_elementsGroup nodes2 w)
      /\ synced reg (pend ∖ {[(el_id element)]}) inner (with_elementsGroup nodes2 w)).
    { destruct (_elementRegistry w !! (el_id element)) as [gfx|] eqn:Hlook.
      - assert (Hreg' : (el_id element) ∈ reg).
        { rewrite <- Hreg. unfold registry_ids. apply elem_of_dom. eauto. }
        pose proof (Hvis _ _ Hlook) as Hv. cbn in Hv. unfold has_visual in Hv.
        pose proof (Hgfx _ _ Hlook) as Hg. cbn in Hg. unfold gfx_ids in Hg.
        destruct (getDjsVisual gfx) as [visual|]; [|discriminate].
        exists (nodes1 ++ [ {| mirror_id := el_id element;
                               mirror_transform :=
                                 if negb (isConnection element)
                                 then Some (el_x element, el_y element) else None;
                               mirror_visual := visual |} ]).
        split; [reflexivity|].
        unfold synced, registry_ids, mirror_ids.
        cbn [_elementRegistry _elementsGroup with_elementsGroup].
        rewrite fmap_app, list_fmap_singleton. cbn [mirror_id].
        repeat apply conj; try assumption.
        + apply NoDup_app. split; [exact Hnd1|]. split; [|apply NoDup_singleton].
          intros x Hx Hx'. apply list_elem_of_singleton in Hx'. subst x.
          assert (Hx'' : (el_id element) ∈ (list_to_set (mirror_id <$> nodes1) : gset string))
            by (apply elem_of_list_to_set; exact Hx).
          rewrite Hset1 in Hx''. clear -Hx''. set_solver.
        + rewrite list_to_set_app_L, Hset1, Hset.
          clear -Hreg' Hdisj. apply set_eq. intros x.
          destruct (decide (x = el_id element)); set_solver.
        + clear -Hdisj. set_solver.
        + clear -Hne. set_solver.
        + intros x Hx. apply elem_of_list_to_set in Hx.
          rewrite inner_ids_app in Hx. apply elem_of_app in Hx as [Hx|Hx].
          * apply Hin. apply elem_of_list_to_set. apply Hin1. exact Hx.
          * apply Hg. apply elem_of_list_to_set.
            cbn in Hx. rewrite app_nil_r in Hx. exact Hx.
      - assert (Hout : (el_id element) ∉ reg).
        { rewrite <- Hreg. unfold registry_ids. intros Hx.
          apply elem_of_dom in Hx.
          rewrite Hlook in Hx. destruct Hx; discriminate. }
        exists nodes1. split; [reflexivity|].
        unfold synced, registry_ids, mirror_ids.
        cbn [_elementRegistry _elementsGroup with_elementsGroup].
        repeat apply conj; try assumption.
        + rewrite Hset1, Hset. clear -Hout Hdisj. set_solver.
        + clear -Hdisj. set_solver.
        + clear -Hne. set_solver.
        + intros x Hx. apply elem_of_list_to_set in Hx.
          apply Hin. apply elem_of_list_to_set. apply Hin1. exact Hx. }
    destruct Hstep as (nodes2 & Hrun2 & Hs2).
    rewrite Hrun2.
    destruct (IH _ _ Hs2 Hrest) as (nodes3 & Hrun3 & Hs3).
    exists nodes3. cbn [with_elementsGroup] in Hrun3 |- *.
    split; [exact Hrun3|].
    replace (pend ∖ list_to_set (el_id <$> element :: elements))
      with (pend ∖ {[(el_id element)]} ∖ list_to_set (el_id <$> elements))
      by (rewrite fmap_cons, list_to_set_cons; clear; set_solver).
    exact Hs3.
Qed.

Lemma on_elements_changed_run reg pend inner w (elements : list Element) :
  synced reg pend inner w ->
  (list_to_set (el_id <$> elements) : gset string) ## inner ->
  exists w' : World C,
    on_elements_changed elements w = Some (tt, w')
    /\ synced reg (pend ∖ list_to_set (el_id <$> elements)) inner w'.
Proof.
  intros Hs Hclear. unfold on_elements_changed.
  destruct (resync_run reg pend inner w elements _ eq_refl Hs Hclear)
    as (nodes & Hrun & Hs').
  unfold bind at 1. rewrite Hrun.
  destruct (_update_run (with_elementsGroup nodes w)) as [h Hup].
  rewrite Hup. eexists. split; [reflexivity|].
  revert Hs'. apply synced_ext; reflexivity.
Qed.

Lemma on_added_run reg pend inner w element (gfx : Gfx) :
  synced reg pend inner w ->
  el_id element ∉ reg ∪ pend ->
  el_id element <> ""%string ->
  has_visual gfx = true ->
  exists w' : World C,
    deliver (ElementAdded element gfx) w = Some (tt, w')
    /\ synced ({[el_id element]} ∪ reg) pend
         (inner ∪ list_to_set (gfx_ids gfx)) w'.
Proof.
  intros (Hreg & Hnd & Hset & Hdisj & Hvis & Hne & Hin & Hgfx) Hnew Hid Hv.
  unfold deliver, modify, bind. cbn [authority handle].
  unfold on_added.
  assert (Hsome : exists visual, getDjsVisual gfx = Some visual).
  { unfold has_visual in Hv. destruct (getDjsVisual gfx); [eauto | discriminate]. }
  destruct Hsome as [visual Hvisual]. rewrite Hvisual.
  set (w1 := with_registry _ w).
  destruct (addElement_run w1 element visual) as (clone & Hadd & Hclone & Hcv).
  unfold bind. rewrite Hadd.
  match goal with |- context [_update ?w2] =>
    destruct (_update_run w2) as [h Hup]; rewrite Hup end.
  eexists. split; [reflexivity|].
  unfold synced, registry_ids, mirror_ids in *. subst w1.
  cbn [_elementRegistry _elementsGroup with_viewport with_viewBox with_heap
       with_elementsGroup with_registry].
  rewrite fmap_app, list_fmap_singleton, Hclone.
  repeat apply conj.
  - rewrite dom_insert_L, Hreg. reflexivity.
  - apply NoDup_app. split; [exact Hnd|]. split; [|apply NoDup_singleton].
    intros x Hx Hx'. apply list_elem_of_singleton in Hx'. subst x.
    apply Hnew. rewrite <- Hset. apply elem_of_list_to_set. exact Hx.
  - rewrite list_to_set_app_L, Hset. clear. set_solver.
  - clear -Hdisj Hnew. set_solver.
  - apply map_Forall_insert_2; [exact Hv | exact Hvis].
  - clear -Hne Hid. set_solver.
  - intros x Hx. apply elem_of_list_to_set in Hx.
    rewrite inner_ids_app in Hx. apply elem_of_app in Hx as [Hx|Hx].
    + apply elem_of_union_l. apply Hin. apply elem_of_list_to_set. exact Hx.
    + apply elem_of_union_r. apply elem_of_list_to_set.
      unfold gfx_ids. rewrite Hvisual.
      cbn in Hx. rewrite app_nil_r, Hcv in Hx. exact Hx.
  - apply map_Forall_insert_2.
    + clear. set_solver.
    + intros k g Hk. pose proof (Hgfx k g Hk) as Hg. cbn in Hg |- *.
      clear -Hg. set_solver.
Qed.

Lemma on_removed_run reg pend inner w element :
  synced reg pend inner w ->
  exists w' : World C,
    deliver (ElementRemoved element) w = Some (tt, w')
    /\ _elementsGroup w' = _elementsGroup w
    /\ synced (reg ∖ {[el_id element]})
         (if bool_decide (el_id element ∈ reg)
          then {[el_id element]} ∪ pend else pend) inner w'.
Proof.
  intros (Hreg & Hnd & Hset & Hdisj & Hvis & Hne & Hin & Hgfx).
  exists (with_registry (delete (el_id element) (_elementRegistry w)) w).
  split; [reflexivity|]. split; [reflexivity|].
  unfold synced, registry_ids, mirror_ids in *.
  cbn [_elementRegistry _elementsGroup with_registry].
  repeat apply conj.
  - rewrite dom_delete_L, Hreg. reflexivity.
  - exact Hnd.
  - rewrite Hset. clear -Hdisj. apply set_eq. intros x.
    destruct (decide (x = el_id element)) as [->|Hx];
      case_bool_decide; set_solver.
  - clear -Hdisj. case_bool_decide; set_solver.
  - apply map_Forall_delete. exact Hvis.
  - intros Hx. apply Hne. clear -Hx.
    case_bool_decide as Hreg;
      rewrite !elem_of_union, elem_of_difference in Hx;
      rewrite elem_of_union.
    + rewrite elem_of_singleton in Hx.
      destruct Hx as [[Hx _]|[Hx|Hx]]; [left; exact Hx | | right; exact Hx].
      left. rewrite Hx. exact Hreg.
    + destruct Hx as [[Hx _]|Hx]; [left; exact Hx | right; exact Hx].
  - exact Hin.
  - apply map_Forall_delete. exact Hgfx.
Qed.

Lemma synced_start (canvas : C) (layout : Rect) :
  synced ∅ ∅ ∅ (Minimap canvas ∅ layout).
Proof.
  unfold synced, registry_ids, mirror_ids. cbn.
  repeat apply conj.
  - apply dom_empty_L.
  - apply NoDup_nil_2.
  - clear. set_solver.
  - clear. set_solver.
  - apply map_Forall_empty.
  - clear. set_solver.
  - clear. set_solver.
  - apply map_Forall_empty.
Qed.

Lemma run_synced (inputs : list Input) :
  forall (reg pend inner : gset string) w,
    synced reg pend inner w ->
    announced reg pend inner inputs = true ->
    exists (w' : World C) (inner' : gset string),
      exec (run inputs) w = Some w' /\ synced (registry_ids w') ∅ inner' w'.
Proof.
  induction inputs as [|i inputs IH]; intros reg pend inner w Hs Hann.
  - cbn in Hann. apply bool_decide_eq_true in Hann. subst pend.
    exists w, inner. split; [reflexivity|].
    destruct Hs as (Hreg & Hrest). subst reg. split; [reflexivity | exact Hrest].
  - assert (Hstep : exists (w1 : World C) (reg1 pend1 inner1 : gset string),
               deliver i w = Some (tt, w1)
               /\ synced reg1 pend1 inner1 w1
               /\ announced reg1 pend1 inner1 inputs = true).
    { destruct i as [e|e|e|e|e|element gfx|element|elements|].
      1-5: match goal with |- context [deliver ?i ?w0] =>
             destruct (deliver_pointer i w0 eq_refl) as (w1 & Hrun & _ & Hg & Hr)
           end;
           exists w1, reg, pend, inner; split; [exact Hrun|]; split; [|exact Hann];
           revert Hs; apply synced_ext; assumption.
      - cbn [announced] in Hann.
        apply andb_prop in Hann as [Hann Hrest].
        apply andb_prop in Hann as [Hann Hgfx].
        apply andb_prop in Hann as [Hnew Hid].
        apply bool_decide_eq_true in Hnew.
        apply negb_true_iff in Hid.
        assert (Hid' : el_id element <> ""%string).
        { intros E. rewrite E in Hid. discriminate. }
        destruct (on_added_run reg pend inner w element gfx Hs Hnew Hid' Hgfx)
          as (w1 & Hrun & Hs1).
        eauto 8.
      - cbn [announced] in Hann.
        destruct (on_removed_run reg pend inner w element Hs) as (w1 & Hrun & _ & Hs1).
        eauto 8.
      - cbn [announced] in Hann.
        apply andb_prop in Hann as [Hclear Hrest].
        apply bool_decide_eq_true in Hclear.
        destruct (on_elements_changed_run reg pend inner w elements Hs Hclear)
          as (w1 & Hrun & Hs1).
        exists w1. eexists. eexists. eexists.
        split; [|split; [exact Hs1 | exact Hrest]].
        unfold deliver, modify, bind. cbn [authority handle]. exact Hrun.
      - destruct (_update_run w) as [h Hup].
        eexists. exists reg, pend, inner. split; [|split; [|exact Hann]].
        + unfold deliver, modify, bind. cbn [authority handle].
          unfold on_viewbox_changed. exact Hup.
        + revert Hs. apply synced_ext; reflexivity. }
    destruct Hstep as (w1 & reg1 & pend1 & inner1 & Hrun & Hs1 & Hann1).
    destruct (IH reg1 pend1 inner1 w1 Hs1 Hann1) as (w' & inner' & Hrest & Hs').
    exists w', inner'. split; [|exact Hs'].
    unfold exec in *. rewrite run_cons, Hrun. exact Hrest.
Qed.

(** C7, as the code has it.  The widget subscribes to additions and to
    bulk changes; a removal from the registry reaches the elements layer
    through the bulk change that lists the removed element, and the bulk
    change looks a clone up by id in the whole miniature, copied nodes
    included.  Starting from the constructor with an empty registry, after
    any sequence of inputs in which every added element has a new,
    non-empty id and graphics with a visual, no bulk change lists an id
    that a node inside a visual added before it carries, and every removal
    has been followed by a bulk change listing the removed element, the
    run completes and the ids of the clones are exactly the ids the
    registry knows, each once. *)
Theorem mirror_matches_registry (canvas : C) (layout : Rect)
    (inputs : list Input) :
  announced ∅ ∅ ∅ inputs = true ->
  exists w : World C,
    exec (run inputs) (Minimap canvas ∅ layout) = Some w
    /\ (list_to_set (mirror_ids w) : gset string) = registry_ids w
    /\ NoDup (mirror_ids w).
Proof.
  intros Hann.
  destruct (run_synced inputs ∅ ∅ ∅ (Minimap canvas ∅ layout)
              (synced_start canvas layout) Hann) as (w & inner & Hrun & Hs).
  exists w. split; [exact Hrun|].
  destruct Hs as (_ & Hnd & Hset & _).
  split; [|exact Hnd]. rewrite Hset. clear. set_solver.
Qed.

End Mirror.

(** ** More on the linear remapping *)

Section LinearMapMore.

Local Open Scope Q_scope.

(** An empty input range: the division is by zero and the result is
    [NaN] or an infinity, never a finite number. *)
Theorem map_empty_range (x inMin inMax outMin outMax : Q) :
  inMin == inMax ->
  is_finite (map (Fin x) (Fin inMin) (Fin inMax) (Fin outMin) (Fin outMax)) = false.
Proof.
  intros Hin. unfold map.
  change (Fin x - Fin inMin)%num with (Fin (x - inMin)).
  change (Fin outMax - Fin outMin)%num with (Fin (outMax - outMin)).
  change (Fin inMax - Fin inMin)%num with (Fin (inMax - inMin)).
  change (Fin (x - inMin) * Fin (outMax - outMin))%num
    with (Fin ((x - inMin) * (outMax - outMin))).
  unfold ndiv.
  assert (E : Qeq_bool (inMax - inMin) 0 = true) by (apply Qeq_bool_iff; lra).
  rewrite E. unfold signed_inf.
  destruct (_ ?= 0); reflexivity.
Qed.

End LinearMapMore.

(** ** More on the fitted box *)

Section FitMore.

Context {C : Type} {canvasAPI : CanvasAPI C}.

Implicit Types (w : World C) (b : Rect) (bounds : loc).

Local Open Scope Q_scope.

(** An empty diagram: a box of width and height zero has ratio [NaN],
    neither comparison holds, and the box is left as it is whatever the
    target. *)
Theorem fitAspectRatio_empty_box w bounds b (r : number) (width height : Q) :
  heap w !! bounds = Some b ->
  rect_width b = Fin width -> rect_height b = Fin height ->
  width == 0 -> height == 0 ->
  fitAspectRatio bounds r w = Some (bounds, w).
Proof.
  intros Hb Hw Hh Hw0 Hh0.
  rewrite (fitAspectRatio_run w bounds b r Hb).
  assert (Hfix : fit_rect b r = b).
  { unfold fit_rect, ngt. rewrite Hw, Hh. unfold ndiv.
    assert (E : Qeq_bool height 0 = true) by (apply Qeq_bool_iff; exact Hh0).
    rewrite E. unfold signed_inf.
    assert (E' : (width ?= 0) = Eq) by (apply Qeq_alt; exact Hw0).
    rewrite E'. rewrite nlt_NaN_r. reflexivity. }
  rewrite Hfix, insert_id by assumption. rewrite with_heap_id. reflexivity.
Qed.

End FitMore.

(** ** More on the pointer mapping *)

Section PointerMapping.

Context {C : Type} {canvasAPI : CanvasAPI C}.

Implicit Types (w : World C) (b : Rect) (bounds : loc).

Local Open Scope Q_scope.

(** [mapClickToDiagramPoint] with the store it leaves behind: one new
    rectangle, the fitted bounding box. *)
Lemma mapClickToDiagramPoint_store w event :
  let layout := boundingClientRect w in
  let bBox := fit_rect (getBBox (_canvas w))
                (rect_width layout / rect_height layout)%num in
  mapClickToDiagramPoint event w
  = Some ({| point_x := map (offsetX event) (Fin 0) (rect_width layout)
                          (rect_x bBox) (rect_x bBox + rect_width bBox)%num;
             point_y := map (offsetY event) (Fin 0) (rect_height layout)
                          (rect_y bBox) (rect_y bBox + rect_height bBox)%num |},
          with_heap (<[fresh (dom (heap w)) := bBox]> (heap w)) w).
Proof.
  intros layout bBox.
  unfold mapClickToDiagramPoint, bind, gets.
  rewrite canvas_getBBox_run.
  set (l := fresh (dom (heap w))).
  set (w1 := with_heap _ w).
  assert (H1 : heap w1 !! l = Some (getBBox (_canvas w))).
  { subst w1. cbn. apply lookup_insert_eq. }
  change (boundingClientRect w1) with layout.
  rewrite (fitAspectRatio_run w1 l _ _ H1). fold bBox.
  set (w2 := with_heap _ w1).
  assert (H2 : heap w2 !! l = Some bBox).
  { subst w2. cbn. apply lookup_insert_eq. }
  rewrite !(read_run w2 l bBox) by assumption.
  unfold ret. subst w2 w1. cbn [heap with_heap get_field].
  rewrite insert_insert_eq. reflexivity.
Qed.

(** Mapping a pointer position asks nothing of the canvas and changes no
    rectangle that existed before the call: the box [fitAspectRatio]
    overwrites is the one [getBBox] has just handed out. *)
Theorem mapClickToDiagramPoint_frame w event :
  exists (p : Point) (w' : World C),
    mapClickToDiagramPoint event w = Some (p, w')
    /\ requests w' = requests w
    /\ _canvas w' = _canvas w
    /\ _state w' = _state w
    /\ _elementsGroup w' = _elementsGroup w
    /\ (forall (l : loc) (b : Rect),
          heap w !! l = Some b -> heap w' !! l = Some b)
    /\ dom (heap w') = {[fresh (dom (heap w))]} ∪ dom (heap w).
Proof.
  rewrite mapClickToDiagramPoint_store.
  eexists. eexists. split; [reflexivity|].
  cbn [requests _canvas _state _elementsGroup heap with_heap].
  repeat apply conj; try reflexivity.
  - intros l b Hl. rewrite lookup_insert_ne; [exact Hl|].
    intros <-. apply (is_fresh (dom (heap w))).
    apply elem_of_dom. eauto.
  - apply dom_insert_L.
Qed.

End PointerMapping.

(** ** More on the elements layer *)

Section LayerMore.

Context {C : Type} {canvasAPI : CanvasAPI C}.

Implicit Types (w : World C) (nodes : list MirrorNode).

Lemma with_elementsGroup_id w : with_elementsGroup (_elementsGroup w) w = w.
Proof. destruct w; reflexivity. Qed.

Lemma first_clone (elementId : string) nodes :
  elementId ∈ mirror_id <$> nodes ->
  exists (before after : list MirrorNode) (n : MirrorNode),
    nodes = before ++ n :: after
    /\ mirror_id n = elementId
    /\ (elementId ∉ mirror_id <$> before).
Proof.
  induction nodes as [|m nodes IH]; intros Hid.
  { apply not_elem_of_nil in Hid. contradiction. }
  destruct (decide (mirror_id m = elementId)) as [E|E].
  - exists [], nodes, m. repeat split; [exact E | apply not_elem_of_nil].
  - rewrite fmap_cons in Hid. apply elem_of_cons in Hid as [Hid|Hid]; [congruence|].
    destruct (IH Hid) as (before & after & n & -> & Hn & Hnot).
    exists (m :: before), after, n. repeat split; [exact Hn|].
    rewrite fmap_cons. apply not_elem_of_cons. split; [congruence | exact Hnot].
Qed.

Lemma delete_middle {A} (l1 l2 : list A) (x : A) :
  delete (length l1) (l1 ++ x :: l2) = l1 ++ l2.
Proof. induction l1 as [|a l1 IH]; cbn; [reflexivity | f_equal; exact IH]. Qed.


(** With one clone per id and no copied node carrying the id, removing an
    element a second time is the same as removing it once. *)
Theorem removeElement_idempotent w element :
  NoDup (mirror_ids w) ->
  el_id element <> ""%string ->
  (el_id element ∉ inner_ids (_elementsGroup w)) ->
  exists w1 : World C,
    removeElement element w = Some (tt, w1)
    /\ removeElement element w1 = Some (tt, w1)
    /\ el_id element ∉ mirror_ids w1.
Proof.
  intros Hnd Hne Hin.
  destruct (removeElement_run w element Hnd Hin ltac:(congruence))
    as (nodes & Hrun & _ & Hset & Hsub).
  exists (with_elementsGroup nodes w). split; [exact Hrun|].
  assert (Hgone : el_id element ∉ mirror_id <$> nodes).
  { intros Hx.
    assert (Hx' : el_id element ∈ (list_to_set (mirror_id <$> nodes) : gset string))
      by (apply elem_of_list_to_set; exact Hx).
    rewrite Hset in Hx'. clear -Hx'. set_solver. }
  split; [|exact Hgone].
  unfold removeElement, getElementById, bind, gets.
  cbn [_elementsGroup with_elementsGroup].
  destruct (String.eqb (el_id element) ""); [reflexivity|].
  rewrite layer_path_absent; [reflexivity | exact Hgone |].
  intros Hx. apply Hin, Hsub, Hx.
Qed.

Lemma delete_snoc {A} (l : list A) (x : A) : delete (length l) (l ++ [x]) = l.
Proof. rewrite delete_middle. apply app_nil_r. Qed.

(** Adding an element whose id is not empty and is carried neither by a
    clone nor by a copied node of the layer, and removing it again, gives
    back the world one started from; what the new clone holds below its
    root does not matter. *)
Theorem addElement_removeElement w element (visual : SvgNode) :
  el_id element <> ""%string ->
  (el_id element ∉ mirror_ids w) ->
  (el_id element ∉ inner_ids (_elementsGroup w)) ->
  exists (clone : MirrorNode) (w1 : World C),
    addElement element (Some visual) w = Some (clone, w1)
    /\ _elementsGroup w1 = _elementsGroup w ++ [clone]
    /\ removeElement element w1 = Some (tt, w).
Proof.
  intros Hne Hid Hin.
  destruct (addElement_run w element visual) as (clone & Hadd & Hclone & _).
  exists clone. eexists. split; [exact Hadd|]. split; [reflexivity|].
  unfold removeElement, getElementById, bind, gets.
  cbn [_elementsGroup with_elementsGroup].
  destruct (String.eqb_spec (el_id element) "") as [E|_]; [contradiction|].
  rewrite (layer_path_clone _ (_elementsGroup w) [] clone) by assumption.
  unfold modify. cbn [svgRemove]. rewrite delete_snoc.
  f_equal. f_equal. destruct w; reflexivity.
Qed.

Lemma getDjsVisual_None (gfx : Gfx) :
  getDjsVisual gfx = None
  <-> forall n : SvgNode, n ∈ gfx -> class_attr n <> Some "djs-visual"%string.
Proof.
  unfold getDjsVisual. rewrite head_None. split.
  - intros Hnil n Hn Hclass.
    assert (Hin : n ∈ filter (fun childNode => class_attr childNode = Some "djs-visual"%string) gfx)
      by (apply list_elem_of_filter; auto).
    rewrite Hnil in Hin. exact (not_elem_of_nil _ Hin).
  - intros Hall.
    destruct (filter _ gfx) as [|n l] eqn:E; [reflexivity|].
    assert (Hin : n ∈ filter (fun childNode => class_attr childNode = Some "djs-visual"%string) gfx)
      by (rewrite E; apply list_elem_of_here).
    apply list_elem_of_filter in Hin as [Hclass Hn].
    exfalso. exact (Hall n Hn Hclass).
Qed.

Lemma getDjsVisual_Some (gfx : Gfx) (visual : SvgNode) :
  getDjsVisual gfx = Some visual ->
  visual ∈ gfx /\ class_attr visual = Some "djs-visual"%string.
Proof.
  unfold getDjsVisual. intros H. apply head_Some_elem_of in H.
  apply list_elem_of_filter in H as [Hclass Hin]. auto.
Qed.

(** The listener of additions raises exactly when the graphics has no
    child of class [djs-visual].  Otherwise it appends one clone: it
    carries the element's id, a copy of a [djs-visual] child of the
    graphics, and a translation to the element's position unless the
    element is a connection. *)
Theorem on_added_outcome w element (gfx : Gfx) :
  (on_added element gfx w = None
   <-> forall n : SvgNode, n ∈ gfx -> class_attr n <> Some "djs-visual"%string)
  /\ (forall w' : World C,
        on_added element gfx w = Some (tt, w') ->
        exists clone : MirrorNode,
          _elementsGroup w' = _elementsGroup w ++ [clone]
          /\ mirror_id clone = el_id element
          /\ mirror_visual clone ∈ gfx
          /\ class_attr (mirror_visual clone) = Some "djs-visual"%string
          /\ mirror_transform clone
             = if isConnection element then None
               else Some (el_x element, el_y element)).
Proof.
  unfold on_added.
  destruct (getDjsVisual gfx) as [visual|] eqn:Hv.
  - destruct (addElement_run w element visual) as (clone & Hadd & Hid & _).
    assert (Hclone : mirror_visual clone = visual
                     /\ mirror_transform clone
                        = if isConnection element then None
                          else Some (el_x element, el_y element)).
    { unfold addElement, svgClone, bind, ret, modify in Hadd.
      injection Hadd as <- _. cbn. destruct (isConnection element); auto. }
    unfold bind. rewrite Hadd.
    match goal with |- context [_update ?w2] =>
      destruct (_update_run w2) as [h Hup]; rewrite Hup end.
    apply getDjsVisual_Some in Hv as [Hin Hclass].
    split.
    + split; [discriminate|]. intros Hall. exfalso. exact (Hall visual Hin Hclass).
    + intros w' Hw'. injection Hw' as <-. exists clone.
      destruct Hclone as [-> ->]. cbn. auto.
  - split.
    + split; [intros _; apply getDjsVisual_None; exact Hv | reflexivity].
    + intros w' Hw'. discriminate.
Qed.

End LayerMore.

(** ** The bulk change, clone by clone *)

Section BulkChange.

Context {C : Type} {canvasAPI : CanvasAPI C}.

Implicit Types (w : World C) (nodes : list MirrorNode).

Lemma filter_all {A} (P : A -> Prop) `{forall x, Decision (P x)} (l : list A) :
  (forall x, x ∈ l -> P x) -> filter P l = l.
Proof.
  induction l as [|a l IH]; intros Hall; [reflexivity|].
  rewrite filter_cons_True by (apply Hall; apply list_elem_of_here).
  rewrite IH; [reflexivity|]. intros x Hx. apply Hall. apply list_elem_of_further. exact Hx.
Qed.

Lemma ids_filter (P : MirrorNode -> Prop) `{forall n, Decision (P n)} nodes :
  NoDup (mirror_id <$> nodes) ->
  NoDup (mirror_id <$> filter P nodes)
  /\ (forall x : string,
        x ∈ mirror_id <$> filter P nodes -> x ∈ mirror_id <$> nodes).
Proof.
  induction nodes as [|n nodes IH]; intros Hnd.
  - split; [exact Hnd | auto].
  - rewrite fmap_cons in Hnd. apply NoDup_cons in Hnd as [Hn Hnd].
    destruct (IH Hnd) as [Hnd' Hsub].
    rewrite filter_cons. destruct (decide (P n)).
    + rewrite !fmap_cons. split.
      * apply NoDup_cons. split; [|exact Hnd']. intros Hin. apply Hn, Hsub, Hin.
      * intros x Hx. apply elem_of_cons in Hx as [->|Hx];
          [apply list_elem_of_here | apply list_elem_of_further, Hsub, Hx].
    + split; [exact Hnd'|]. intros x Hx. rewrite fmap_cons.
      apply list_elem_of_further, Hsub, Hx.
Qed.

Lemma inner_ids_filter (P : MirrorNode -> Prop) `{forall n, Decision (P n)}
    nodes (x : string) :
  x ∈ inner_ids (filter P nodes) -> x ∈ inner_ids nodes.
Proof.
  induction nodes as [|n nodes IH]; [auto|].
  rewrite filter_cons, inner_ids_cons. destruct (decide (P n)).
  - rewrite inner_ids_cons, !elem_of_app. intros [Hx|Hx]; auto.
  - rewrite elem_of_app. auto.
Qed.

(** With one clone per id and no copied node carrying the id, taking out
    the first node with the id is taking out every clone with that id. *)
Lemma removeElement_filter w element :
  NoDup (mirror_ids w) ->
  (el_id element ∉ inner_ids (_elementsGroup w)) ->
  el_id element <> ""%string ->
  removeElement element w
  = Some (tt, with_elementsGroup
                (filter (fun n => mirror_id n <> el_id element) (_elementsGroup w)) w).
Proof.
  unfold mirror_ids, removeElement, getElementById, bind, gets.
  intros Hnd Hin Hne.
  destruct (String.eqb_spec (el_id element) "") as [E|_]; [contradiction|].
  destruct (layer_path (el_id element) (_elementsGroup w)) as [[k p]|] eqn:Hk.
  - destruct (layer_path_Some _ _ _ _ Hin Hk)
      as (-> & before & after & n & Hsplit & _ & Hn & Hnot & Hdel).
    cbn [svgRemove]. rewrite Hdel, Hsplit. unfold modify. do 3 f_equal.
    rewrite Hsplit, fmap_app, fmap_cons in Hnd.
    apply NoDup_app in Hnd as (_ & _ & Hnd).
    apply NoDup_cons in Hnd as [Hafter _].
    rewrite filter_app, filter_cons_False by (intros Hx; apply Hx; exact Hn).
    rewrite !filter_all; [reflexivity| |].
    + intros x Hx Hid. apply Hafter. rewrite Hn, <- Hid.
      apply list_elem_of_fmap_2. exact Hx.
    + intros x Hx Hid. apply Hnot. rewrite <- Hid.
      apply list_elem_of_fmap_2. exact Hx.
  - apply layer_path_None in Hk.
    rewrite filter_all.
    + unfold ret. rewrite with_elementsGroup_id. reflexivity.
    + intros x Hx Hid. apply Hk. rewrite <- Hid.
      apply list_elem_of_fmap_2. exact Hx.
Qed.

Lemma filter_not_in_cons (id : string) (ids : list string) nodes :
  filter (fun n => mirror_id n ∉ ids)
    (filter (fun n => mirror_id n <> id) nodes)
  = filter (fun n => mirror_id n ∉ id :: ids) nodes.
Proof.
  induction nodes as [|n nodes IH]; [reflexivity|].
  rewrite (filter_cons (fun n => mirror_id n <> id)).
  rewrite (filter_cons (fun n => mirror_id n ∉ id :: ids)).
  destruct (decide (mirror_id n <> id)) as [Hne|Heq].
  - rewrite filter_cons.
    destruct (decide (mirror_id n ∉ ids)) as [Hout|Hin];
      destruct (decide (mirror_id n ∉ id :: ids)) as [Hout'|Hin'].
    + rewrite IH. reflexivity.
    + exfalso. apply Hin'. apply not_elem_of_cons. auto.
    + exfalso. apply Hin. apply not_elem_of_cons in Hout'. tauto.
    + exact IH.
  - destruct (decide (mirror_id n ∉ id :: ids)) as [Hout'|Hin']; [|exact IH].
    exfalso. apply Hout'. apply dec_stable in Heq. rewrite Heq.
    apply list_elem_of_here.
Qed.

(** The loop of the bulk change, exactly: the clones of elements outside
    the batch stay, in their order; after them come, in batch order, new
    clones of the batch elements the registry has graphics for. *)
Lemma resync_exact (elements : list Element) :
  forall w,
    NoDup (mirror_ids w) ->
    NoDup (el_id <$> elements) ->
    map_Forall (fun _ gfx => has_visual gfx = true) (_elementRegistry w) ->
    (""%string ∉ el_id <$> elements) ->
    (forall x : string,
       x ∈ el_id <$> elements ->
       x ∉ inner_ids (_elementsGroup w)
           ++ inner_ids (omap (clone_of (_elementRegistry w)) elements)) ->
    forEach elements (fun element =>
      bind (removeElement element) (fun _ =>
      bind (gets (fun w => _elementRegistry w !! el_id element)) (fun gfx =>
      match gfx with
      | Some gfx =>
          bind (addElement element (getDjsVisual gfx)) (fun _ => ret tt)
      | None => ret tt
      end))) w
    = Some (tt, with_elementsGroup
                  (filter (fun n => mirror_id n ∉ el_id <$> elements)
                          (_elementsGroup w)
                   ++ omap (clone_of (_elementRegistry w)) elements) w).
Proof.
  induction elements as [|element elements IH];
    intros w Hnd Hids Hvis Hne Hclear.
  - cbn [forEach fmap list_fmap omap list_omap]. rewrite app_nil_r.
    rewrite filter_all by (intros; apply not_elem_of_nil).
    unfold ret. rewrite with_elementsGroup_id. reflexivity.
  - rewrite fmap_cons in Hids. apply NoDup_cons in Hids as [Hfresh Hids].
    rewrite fmap_cons in Hne. apply not_elem_of_cons in Hne as [Hne Hne'].
    assert (Hin : el_id element ∉ inner_ids (_elementsGroup w)).
    { intros Hx. apply (Hclear (el_id element)).
      - rewrite fmap_cons. apply list_elem_of_here.
      - apply elem_of_app. left. exact Hx. }
    cbn [forEach]. unfold bind at 1. unfold bind at 1.
    rewrite (removeElement_filter w element Hnd Hin) by congruence.
    unfold bind at 1. unfold gets at 1.
    cbn [_elementRegistry with_elementsGroup].
    set (kept := filter (fun n => mirror_id n <> el_id element) (_elementsGroup w)).
    destruct (ids_filter (fun n => mirror_id n <> el_id element) (_elementsGroup w) Hnd)
      as [Hkept Hsub]. fold kept in Hkept, Hsub.
    assert (Hgone : el_id element ∉ mirror_id <$> kept).
    { intros Hx. apply list_elem_of_fmap in Hx as (n & Hid & Hn).
      apply list_elem_of_filter in Hn as [Hn _]. congruence. }
    assert (Hstep : exists added : list MirrorNode,
      match _elementRegistry w !! el_id element with
      | Some gfx => bind (addElement element (getDjsVisual gfx)) (fun _ => ret tt)
      | None => ret tt
      end (with_elementsGroup kept w)
      = Some (tt, with_elementsGroup (kept ++ added) w)
      /\ omap (clone_of (_elementRegistry w)) (element :: elements)
         = added ++ omap (clone_of (_elementRegistry w)) elements
      /\ NoDup (mirror_id <$> kept ++ added)
      /\ filter (fun n => mirror_id n ∉ el_id <$> elements) added = added).
    { cbn [omap list_omap]. unfold clone_of at 1.
      destruct (_elementRegistry w !! el_id element) as [gfx|] eqn:Hlook.
      - pose proof (Hvis _ _ Hlook) as Hv. cbn in Hv. unfold has_visual in Hv.
        destruct (getDjsVisual gfx) as [visual|]; [|discriminate].
        eexists [_]. split; [reflexivity|]. split; [reflexivity|]. split.
        + rewrite fmap_app. apply NoDup_app. split; [exact Hkept|].
          split; [|apply NoDup_singleton].
          intros x Hx Hx'. apply list_elem_of_singleton in Hx'. subst x.
          exact (Hgone Hx).
        + apply filter_all. intros x Hx. apply list_elem_of_singleton in Hx.
          subst x. exact Hfresh.
      - exists []. rewrite !app_nil_r.
        split; [reflexivity|]. split; [reflexivity|]. split; [exact Hkept|].
        reflexivity. }
    destruct Hstep as (added & Hrun & Homap & Hnd' & Hadded).
    rewrite Hrun, Homap.
    rewrite (IH (with_elementsGroup (kept ++ added) w));
      [| exact Hnd' | exact Hids | exact Hvis | exact Hne' |].
    + cbn [_elementsGroup _elementRegistry with_elementsGroup].
      rewrite filter_app, Hadded. subst kept.
      rewrite filter_not_in_cons, fmap_cons, <- app_assoc. reflexivity.
    + cbn [_elementsGroup _elementRegistry with_elementsGroup].
      intros x Hx Hbad.
      apply (Hclear x); [rewrite fmap_cons; apply list_elem_of_further; exact Hx|].
      rewrite Homap, inner_ids_app.
      rewrite inner_ids_app in Hbad.
      rewrite !elem_of_app in Hbad |- *.
      destruct Hbad as [[Hbad|Hbad]|Hbad]; auto.
      left. subst kept. apply inner_ids_filter in Hbad. exact Hbad.
Qed.

(** The listener of bulk changes: with one clone per id, a batch of
    elements with distinct, non-empty ids none of which is carried by a
    copied node, in the layer or in the clones the batch adds, and
    visuals on all registered graphics, the elements layer afterwards
    holds the clones of the elements outside the batch, untouched and in
    their order, followed in batch order by a new clone, at its current
    position, of each batch element the registry has graphics for; batch
    elements the registry does not know are gone. *)
Theorem on_elements_changed_exact w (elements : list Element) :
  NoDup (mirror_ids w) ->
  NoDup (el_id <$> elements) ->
  map_Forall (fun _ gfx => has_visual gfx = true) (_elementRegistry w) ->
  (""%string ∉ el_id <$> elements) ->
  Forall (fun x : string =>
            x ∉ inner_ids (_elementsGroup w)
                ++ inner_ids (omap (clone_of (_elementRegistry w)) elements))
         (el_id <$> elements) ->
  exists w' : World C,
    on_elements_changed elements w = Some (tt, w')
    /\ _elementsGroup w'
       = filter (fun n => mirror_id n ∉ el_id <$> elements) (_elementsGroup w)
         ++ omap (clone_of (_elementRegistry w)) elements
    /\ _elementRegistry w' = _elementRegistry w.
Proof.
  intros Hnd Hids Hvis Hne Hclear. unfold on_elements_changed. unfold bind at 1.
  rewrite Forall_forall in Hclear.
  rewrite (resync_exact elements w Hnd Hids Hvis Hne Hclear).
  match goal with |- context [_update ?w2] =>
    destruct (_update_run w2) as [h Hup]; rewrite Hup end.
  eexists. split; [reflexivity|]. split; reflexivity.
Qed.

End BulkChange.

(** ** What a run of inputs leaves in the elements layer *)

Section Tracking.

Context {C : Type} {canvasAPI : CanvasAPI C}.

Implicit Types (w : World C).

Lemma run_tracked (inputs : list Input) :
  forall (reg pend inner reg' pend' : gset string) w,
    synced reg pend inner w ->
    track reg pend inner inputs = Some (reg', pend') ->
    exists (w' : World C) (inner' : gset string),
      exec (run inputs) w = Some w' /\ synced reg' pend' inner' w'.
Proof.
  induction inputs as [|i inputs IH]; intros reg pend inner reg' pend' w Hs Htr.
  - cbn in Htr. injection Htr as <- <-. exists w, inner.
    split; [reflexivity | exact Hs].
  - assert (Hstep : exists (w1 : World C) (reg1 pend1 inner1 : gset string),
               deliver i w = Some (tt, w1)
               /\ synced reg1 pend1 inner1 w1
               /\ track reg1 pend1 inner1 inputs = Some (reg', pend')).
    { destruct i as [e|e|e|e|e|element gfx|element|elements|].
      1-5: match goal with |- context [deliver ?i ?w0] =>
             destruct (deliver_pointer i w0 eq_refl) as (w1 & Hrun & _ & Hg & Hr)
           end;
           exists w1, reg, pend, inner; split; [exact Hrun|]; split; [|exact Htr];
           revert Hs; apply synced_ext; assumption.
      - cbn [track] in Htr.
        destruct (bool_decide (el_id element ∉ reg ∪ pend)
                  && negb (String.eqb (el_id element) "")
                  && has_visual gfx)
          eqn:Hok; [|discriminate].
        apply andb_prop in Hok as [Hok Hgfx].
        apply andb_prop in Hok as [Hnew Hid].
        apply bool_decide_eq_true in Hnew.
        apply negb_true_iff in Hid.
        assert (Hid' : el_id element <> ""%string).
        { intros E. rewrite E in Hid. discriminate. }
        destruct (on_added_run reg pend inner w element gfx Hs Hnew Hid' Hgfx)
          as (w1 & Hrun & Hs1).
        eauto 8.
      - cbn [track] in Htr.
        destruct (on_removed_run reg pend inner w element Hs) as (w1 & Hrun & _ & Hs1).
        eauto 8.
      - cbn [track] in Htr.
        destruct (bool_decide (_ ## _)) eqn:Hclear; [|discriminate].
        apply bool_decide_eq_true in Hclear.
        destruct (on_elements_changed_run reg pend inner w elements Hs Hclear)
          as (w1 & Hrun & Hs1).
        exists w1. eexists. eexists. eexists.
        split; [|split; [exact Hs1 | exact Htr]].
        unfold deliver, modify, bind. cbn [authority handle]. exact Hrun.
      - destruct (_update_run w) as [h Hup].
        eexists. exists reg, pend, inner. split; [|split; [|exact Htr]].
        + unfold deliver, modify, bind. cbn [authority handle].
          unfold on_viewbox_changed. exact Hup.
        + revert Hs. apply synced_ext; reflexivity. }
    destruct Hstep as (w1 & reg1 & pend1 & inner1 & Hrun & Hs1 & Htr1).
    destruct (IH _ _ _ _ _ w1 Hs1 Htr1) as (w' & inner' & Hrest & Hs').
    exists w', inner'. split; [|exact Hs'].
    unfold exec in *. rewrite run_cons, Hrun. exact Hrest.
Qed.

(** No missing entries, whatever happens to removals.  After any run of
    inputs from the constructor in which added elements bring new,
    non-empty ids and graphics with a visual, and no bulk change lists an
    id that a node inside a visual added before it carries, every
    registered id is mirrored, once; the mirrored ids that are not
    registered are exactly the ids removed from the registry that no bulk
    change has listed since. *)
Theorem registered_are_mirrored (canvas : C) (layout : Rect)
    (inputs : list Input) (reg pend : gset string) :
  track ∅ ∅ ∅ inputs = Some (reg, pend) ->
  exists w : World C,
    exec (run inputs) (Minimap canvas ∅ layout) = Some w
    /\ registry_ids w = reg
    /\ registry_ids w ⊆ list_to_set (mirror_ids w)
    /\ (list_to_set (mirror_ids w) : gset string) ∖ registry_ids w = pend
    /\ NoDup (mirror_ids w).
Proof.
  intros Htr.
  destruct (run_tracked inputs ∅ ∅ ∅ reg pend (Minimap canvas ∅ layout)
              (synced_start canvas layout) Htr) as (w & inner & Hrun & Hs).
  exists w. split; [exact Hrun|].
  destruct Hs as (Hreg & Hnd & Hset & Hdisj & _).
  rewrite Hreg, Hset. repeat apply conj; try assumption; try reflexivity.
  - clear. set_solver.
  - clear -Hdisj. set_solver.
Qed.

End Tracking.

(** ** What the listeners leave alone *)

Section Frames.

Context {C : Type} {canvasAPI : CanvasAPI C}.

Implicit Types (w : World C).

(** [_update] only writes the two attributes: the [viewBox] of the
    miniature and the rectangle of the indicator, which is the viewbox the
    canvas reports.  It asks nothing of the canvas and leaves the drag
    state and the elements layer alone; run again without a change of the
    canvas, it writes the same attributes. *)
Theorem update_only_attributes w :
  exists w1 w2 : World C,
    _update w = Some (tt, w1)
    /\ _viewport w1
       = Some {| rect_x := rect_x (get_viewbox (_canvas w));
                 rect_y := rect_y (get_viewbox (_canvas w));
                 rect_width := rect_width (get_viewbox (_canvas w));
                 rect_height := rect_height (get_viewbox (_canvas w)) |}
    /\ requests w1 = requests w
    /\ _canvas w1 = _canvas w
    /\ _state w1 = _state w
    /\ _elementsGroup w1 = _elementsGroup w
    /\ _update w1 = Some (tt, w2)
    /\ svg_viewBox w2 = svg_viewBox w1
    /\ _viewport w2 = _viewport w1.
Proof.
  destruct (_update_run w) as [h Hup].
  match type of Hup with _ = Some (_, ?w1) =>
    destruct (_update_run w1) as [h1 Hup1] end.
  eexists. eexists. split; [exact Hup|].
  do 5 (split; [reflexivity|]).
  split; [exact Hup1|]. split; reflexivity.
Qed.

(** Pointer inputs never touch the elements layer or the registry. *)
Theorem pointers_keep_layer (inputs : list Input) w :
  forallb is_pointer inputs = true ->
  exists w' : World C,
    exec (run inputs) w = Some w'
    /\ _elementsGroup w' = _elementsGroup w
    /\ _elementRegistry w' = _elementRegistry w.
Proof.
  revert w. induction inputs as [|i inputs IH]; intros w Hall.
  - exists w. repeat split.
  - cbn in Hall. apply andb_prop in Hall as [Hi Hall].
    destruct (deliver_pointer i w Hi) as (w1 & Hrun & _ & Hg & Hr).
    destruct (IH w1 Hall) as (w' & Hrest & Hg' & Hr').
    exists w'. split; [|split; congruence].
    unfold exec in *. rewrite run_cons, Hrun. exact Hrest.
Qed.

Lemma removeElement_controls w w' element :
  removeElement element w = Some (tt, w') -> same_controls w w'.
Proof.
  unfold removeElement, bind, gets, modify, ret.
  destruct (getElementById _ _); intros H; injection H as <-; repeat split.
Qed.

Lemma addElement_controls w w' element (visual : option SvgNode) (clone : MirrorNode) :
  addElement element visual w = Some (clone, w') -> same_controls w w'.
Proof.
  unfold addElement, svgClone, bind, modify, ret, throw.
  destruct visual; intros H; [|discriminate]. injection H as _ <-. repeat split.
Qed.

Lemma forEach_controls {A} (l : list A) (f : A -> M C unit) :
  (forall a w w', f a w = Some (tt, w') -> same_controls w w') ->
  forall w w', forEach l f w = Some (tt, w') -> same_controls w w'.
Proof.
  intros Hf. induction l as [|a l IH]; intros w w' H.
  - injection H as <-. repeat split.
  - cbn [forEach] in H. unfold bind in H.
    destruct (f a w) as [[[] w1]|] eqn:Ha; [|discriminate].
    destruct (Hf _ _ _ Ha) as (H1 & H2 & H3).
    destruct (IH _ _ H) as (H1' & H2' & H3').
    repeat split; congruence.
Qed.

Lemma deliver_controls (i : Input) w w' :
  is_pointer i = false ->
  deliver i w = Some (tt, w') -> same_controls w w'.
Proof.
  destruct i as [e|e|e|e|e|element gfx|element|elements|]; try discriminate;
    intros _; unfold deliver, modify, bind at 1; cbn [authority handle].
  - unfold on_added, bind.
    destruct (addElement _ _ _) as [[clone w1]|] eqn:Hadd; [|discriminate].
    apply addElement_controls in Hadd as (H1 & H2 & H3).
    destruct (_update_run w1) as [h Hup]. rewrite Hup.
    intros H. injection H as <-. cbn. repeat split; assumption.
  - intros H. injection H as <-. repeat split.
  - unfold on_elements_changed. unfold bind at 1.
    match goal with |- context [forEach elements ?f w] =>
      destruct (forEach elements f w) as [[[] w1]|] eqn:Hloop; [|discriminate];
      apply (forEach_controls elements f) in Hloop
    end.
    + destruct Hloop as (H1 & H2 & H3).
      destruct (_update_run w1) as [h Hup]. rewrite Hup.
      intros H. injection H as <-. cbn. repeat split; assumption.
    + intros a w0 w0'. unfold bind at 1.
      destruct (removeElement a w0) as [[[] w2]|] eqn:Hrm; [|discriminate].
      apply removeElement_controls in Hrm as (H1 & H2 & H3).
      unfold bind at 1, gets at 1.
      destruct (_elementRegistry w2 !! el_id a) as [gfx|].
      * unfold bind.
        destruct (addElement _ _ _) as [[clone w3]|] eqn:Hadd; [|discriminate].
        apply addElement_controls in Hadd as (H1' & H2' & H3').
        intros H. injection H as <-. repeat split; congruence.
      * intros H. injection H as <-. repeat split; assumption.
  - unfold on_viewbox_changed. destruct (_update_run w) as [h Hup]. rewrite Hup.
    intros H. injection H as <-. repeat split.
Qed.

(** Notifications from the diagram never make the widget ask anything of
    the canvas, and never change the drag state: whenever a run of
    additions, removals, bulk changes and viewbox changes completes, the
    request log, the canvas and the drag state are as before. *)
Theorem notifications_request_nothing (inputs : list Input) w w' :
  forallb (fun i => negb (is_pointer i)) inputs = true ->
  exec (run inputs) w = Some w' ->
  requests w' = requests w /\ _canvas w' = _canvas w /\ _state w' = _state w.
Proof.
  revert w. induction inputs as [|i inputs IH]; intros w Hall Hrun.
  - injection Hrun as <-. repeat split.
  - cbn in Hall. apply andb_prop in Hall as [Hi Hall].
    apply negb_true_iff in Hi.
    unfold exec in *. rewrite run_cons in Hrun.
    destruct (deliver i w) as [[[] w1]|] eqn:Hd; [|discriminate].
    destruct (deliver_controls i w w1 Hi Hd) as (H1 & H2 & H3).
    destruct (IH w1 Hall Hrun) as (H1' & H2' & H3').
    repeat split; congruence.
Qed.

End Frames.

(** ** More on the drag *)

Section DragMore.

Context {C : Type} {canvasAPI : CanvasAPI C}.

Implicit Types (w : World C).

(** Outside a drag, pointer moves do nothing at all: the world after any
    number of them is the world before. *)
Theorem moves_outside_drag (moves : list Event) w :
  isDragging (_state w) = false ->
  run (MouseMove <$> moves) w = Some (tt, w).
Proof.
  intros Hidle. induction moves as [|e moves IH]; [reflexivity|].
  rewrite fmap_cons, run_cons.
  unfold deliver, modify, bind. cbn [authority handle].
  unfold on_mousemove, bind, gets. rewrite Hidle. exact IH.
Qed.

(** The first pointer move after pointer-down asks for a viewbox of
    exactly the size snapshotted at pointer-down. *)
Theorem first_move_uses_snapshot_size w (down move : Event) :
  exists (w1 w2 : World C) (snapshot box : Rect),
    deliver (MouseDown down) w = Some (tt, w1)
    /\ cachedViewbox (_state w1) = Obj snapshot
    /\ on_mousemove move w1 = Some (move, w2)
    /\ requests w2 = SetViewbox box :: requests w
    /\ rect_width box = rect_width snapshot
    /\ rect_height box = rect_height snapshot.
Proof.
  set (w1 := with_state
               {| isDragging := true;
                  initialDragPosition :=
                    Obj {| point_x := clientX down; point_y := clientY down |};
                  cachedViewbox := Obj (get_viewbox (_canvas w)) |} w).
  destruct (on_mousemove_run w1 move eq_refl)
    as (p & h & w2 & _ & Hrun & Hreq & _).
  exists w1, w2, (get_viewbox (_canvas w)). eexists.
  split; [reflexivity|]. split; [reflexivity|]. split; [exact Hrun|].
  split; [exact Hreq|]. split; reflexivity.
Qed.

(** A click asks the canvas for one viewbox and no zoom, leaves the drag
    state and the elements layer as they were, and is what a pointer move
    at the same place does during a drag. *)
Theorem click_is_one_move w event :
  exists (box : Rect) (w' : World C),
    on_click event w = Some (event, w')
    /\ requests w' = SetViewbox box :: requests w
    /\ rect_width box = rect_width (get_viewbox (_canvas w))
    /\ rect_height box = rect_height (get_viewbox (_canvas w))
    /\ _state w' = _state w
    /\ _elementsGroup w' = _elementsGroup w
    /\ (isDragging (_state w) = true ->
        on_mousemove event w = Some (event, w')).
Proof.
  unfold on_click, bind.
  destruct (mapClickToDiagramPoint_run w event) as [h1 H1].
  rewrite H1. rewrite setViewboxCenteredAroundPoint_run.
  match goal with |- context [_update ?w3] =>
    destruct (_update_run w3) as [h3 H3]; rewrite H3 end.
  eexists. eexists. split; [reflexivity|].
  cbn [requests _state _elementsGroup _canvas with_viewport with_viewBox
       with_heap with_canvas rect_width rect_height].
  do 5 (split; [reflexivity|]).
  intros Hdrag. unfold on_mousemove, bind, gets. rewrite Hdrag, H1.
  rewrite setViewboxCenteredAroundPoint_run, H3. reflexivity.
Qed.

End DragMore.

(** ** Placement of the panel *)

Section Placement.

Lemma split_on_plain (sep : ascii) (s : string) :
  (forall c, In c (list_ascii_of_string s) -> c <> sep) ->
  split_on sep s = (s, []).
Proof.
  induction s as [|c s IH]; intros Hs; [reflexivity|].
  cbn [split_on]. rewrite IH by (intros c' Hc'; apply Hs; right; exact Hc').
  destruct (Ascii.eqb_spec c sep) as [E|E]; [|reflexivity].
  exfalso. apply (Hs c); [left; reflexivity | exact E].
Qed.

Lemma split_on_app (sep : ascii) (s t : string) :
  (forall c, In c (list_ascii_of_string s) -> c <> sep) ->
  split_on sep (s +:+ String sep t)
  = (s, fst (split_on sep t) :: snd (split_on sep t)).
Proof.
  induction s as [|c s IH]; intros Hs.
  - change (EmptyString +:+ String sep t) with (String sep t).
    cbn [split_on]. rewrite Ascii.eqb_refl.
    destruct (split_on sep t). reflexivity.
  - change (String c s +:+ String sep t) with (String c (s +:+ String sep t)).
    cbn [split_on].
    rewrite IH by (intros c' Hc'; apply Hs; right; exact Hc').
    destruct (Ascii.eqb_spec c sep) as [E|E]; [|reflexivity].
    exfalso. apply (Hs c); [left; reflexivity | exact E].
Qed.

(** The two words of a position are read back: a string made of a
    non-empty horizontal word, a dash and a non-empty vertical word, none
    of them containing a dash, gives these two words. *)
Theorem getPositions_reads (h v : string) :
  h <> EmptyString -> v <> EmptyString ->
  (forall c, In c (list_ascii_of_string h) -> c <> "-"%char) ->
  (forall c, In c (list_ascii_of_string v) -> c <> "-"%char) ->
  getPositions (h +:+ String "-" v) = {| horizontal := h; vertical := v |}.
Proof.
  intros Hh Hv Hhd Hvd. unfold getPositions, js_split.
  rewrite split_on_app by assumption.
  rewrite (split_on_plain _ v) by assumption. cbn.
  destruct h; [contradiction|]. destruct v; [contradiction|]. reflexivity.
Qed.

(** Missing words fall back: whatever the position string, neither word
    comes out empty, and a string without a dash has the vertical word
    [top]. *)
Theorem getPositions_fallback (position : string) :
  getHorizontalPosition position <> EmptyString
  /\ getVerticalPosition position <> EmptyString
  /\ (position = EmptyString -> getHorizontalPosition position = "right"%string)
  /\ ((forall c, In c (list_ascii_of_string position) -> c <> "-"%char) ->
      getVerticalPosition position = "top"%string).
Proof.
  unfold getHorizontalPosition, getVerticalPosition, getPositions, js_split.
  destruct (split_on "-" position) as [piece pieces] eqn:E. cbn.
  repeat apply conj.
  - destruct piece; discriminate.
  - destruct pieces as [|[|c s] pieces]; discriminate.
  - intros ->. cbn in E. injection E as <- _. reflexivity.
  - intros Hplain. rewrite split_on_plain in E by assumption.
    injection E as _ <-. reflexivity.
Qed.

(** Whatever the position string, the panel is anchored on exactly one
    horizontal side and one vertical side, by the margin; the left side
    only for the word [left], the bottom only for the word [bottom]; every
    other style is kept. *)
Theorem init_styles_anchors (position : string) (styles : gmap string string) :
  let styles' := init_styles position styles in
  (if String.eqb (getHorizontalPosition position) "left"
   then styles' !! "left"%string = Some MINIMAP_MARGIN
        /\ styles' !! "right"%string = styles !! "right"%string
   else styles' !! "right"%string = Some MINIMAP_MARGIN
        /\ styles' !! "left"%string = styles !! "left"%string)
  /\ (if String.eqb (getVerticalPosition position) "bottom"
      then styles' !! "bottom"%string = Some MINIMAP_MARGIN
           /\ styles' !! "top"%string = styles !! "top"%string
      else styles' !! "top"%string = Some MINIMAP_MARGIN
           /\ styles' !! "bottom"%string = styles !! "bottom"%string)
  /\ (forall k : string,
        k <> "left"%string -> k <> "right"%string ->
        k <> "top"%string -> k <> "bottom"%string ->
        styles' !! k = styles !! k).
Proof.
  unfold init_styles.
  destruct (String.eqb (getHorizontalPosition position) "left");
    destruct (String.eqb (getVerticalPosition position) "bottom");
    cbv zeta; repeat apply conj; intros;
    repeat first [rewrite lookup_insert_eq | rewrite lookup_insert_ne by congruence];
    reflexivity.
Qed.

End Placement.

Local Open Scope Q_scope.

Lemma fitAspectRatio_in_place_witness :
  exists b' : Rect,
    fitAspectRatio 1%positive (Fin (16 # 9)) boxed_world
    = Some (1%positive,
            with_heap (<[1%positive := b']> (heap boxed_world)) boxed_world)
    /\ rect_width b' =n= Fin (1600 # 9).
Proof.
  destruct (fitAspectRatio_in_place boxed_world 1%positive square (Fin (16 # 9)))
    as (b' & Hrun & _ & _ & Hbelow & _); [reflexivity|].
  exists b'. split; [exact Hrun|].
  destruct Hbelow as (_ & _ & Hw & _); [reflexivity | reflexivity |].
  rewrite Hw. reflexivity.
Defined.

(** C10, as stated, fails: fitting the 100 x 100 square stored at
    location 1 to the ratio 16/9 returns location 1 itself, and the record
    read back from it is 1600/9 wide. *)
Lemma fitAspectRatio_overwrites_argument :
  heap boxed_world !! 1%positive = Some square
  /\ exists (w' : World SimpleCanvas) (b' : Rect),
      fitAspectRatio 1%positive (Fin (16 # 9)) boxed_world = Some (1%positive, w')
      /\ heap w' !! 1%positive = Some b'
      /\ rect_width b' =n= Fin (1600 # 9)
      /\ rect_x b' =n= Fin (- 350 # 9)
      /\ ~ rect_width b' =n= rect_width square
      /\ ~ rect_x b' =n= rect_x square.
Proof.
  split; [reflexivity|].
  eexists. eexists.
  split; [rewrite (fitAspectRatio_run boxed_world 1%positive square) by reflexivity;
          reflexivity|].
  split; [cbn; rewrite lookup_insert_eq; reflexivity|].
  vm_compute. repeat split; intros; discriminate.
Qed.

(** ** Evaluations on the demo world *)

Example ToNumber_plain : ToNumber (VStr " 3.20e2 ") =n= Fin 320.
Proof. vm_compute. reflexivity. Qed.

Example ToNumber_hex : ToNumber (VStr "0x1F") =n= Fin 31.
Proof. vm_compute. reflexivity. Qed.

Example ToNumber_px : ToNumber (VStr "320px") = NaN.
Proof. reflexivity. Qed.

(** C1.  On a 100 x 100 diagram, smaller than the 320 x 180 floor in both
    directions, [_update] sets the [viewBox] attribute to the bounding box
    itself, [0, 0, 100, 100]; the floor would give [-110, -40, 320, 180]. *)
Theorem update_small_diagram :
  js_lt (VNum (Fin 100)) (dim_width MIN_VIEWBOX_DIMENSIONS) = false
  /\ exists w' : World SimpleCanvas,
      _update demo_world = Some (tt, w')
      /\ svg_viewBox w'
         = Some {| vb_x := VNum (Fin 0); vb_y := VNum (Fin 0);
                   vb_width := VNum (Fin 100); vb_height := VNum (Fin 100) |}.
Proof.
  split; [reflexivity|].
  destruct (update_uses_bounding_box demo_world) as (w' & Hrun & Hvb).
  exists w'. split; [exact Hrun | exact Hvb].
Qed.


Lemma on_mousemove_recenters_witness :
  exists (p : Point) (h : gmap loc Rect) (box : Rect) (w' : World SimpleCanvas),
    mapClickToDiagramPoint (pointer 160 90 0) dragging_world
    = Some (p, with_heap h dragging_world)
    /\ on_mousemove (pointer 160 90 0) dragging_world
       = Some (pointer 160 90 0, w')
    /\ requests w' = SetViewbox box :: requests dragging_world
    /\ rect_width box =n= Fin 1000 /\ rect_height box =n= Fin 500.
Proof.
  destruct (on_mousemove_recenters dragging_world (pointer 160 90 0))
    as (p & h & box & w' & Hp & Hrun & Hreq & Hw & Hh & _); [reflexivity|].
  exists p, h, box, w'. rewrite Hw, Hh. repeat split; assumption.
Defined.

(** C5, as stated, fails: a wheel turn between pointer-down and the next
    pointer move doubles the zoom; the move then asks for a 500 x 250
    viewbox while the snapshot taken at pointer-down is 1000 x 500. *)
Lemma drag_follows_current_viewbox :
  exists (w w' : World SimpleCanvas) (snapshot box : Rect),
    exec (run [MouseDown (pointer 10 10 0); Wheel (pointer 160 90 (- (300)))])
      demo_world = Some w
    /\ isDragging (_state w) = true
    /\ cachedViewbox (_state w) = Obj snapshot
    /\ on_mousemove (pointer 100 50 0) w = Some (pointer 100 50 0, w')
    /\ head (requests w') = Some (SetViewbox box)
    /\ rect_width snapshot =n= Fin 1000 /\ rect_height snapshot =n= Fin 500
    /\ rect_width box =n= Fin 500 /\ rect_height box =n= Fin 250
    /\ ~ rect_width box =n= rect_width snapshot
    /\ ~ rect_height box =n= rect_height snapshot.
Proof.
  eexists. eexists. eexists. eexists.
  split; [vm_compute; reflexivity|].
  split; [reflexivity|].
  split; [reflexivity|].
  split; [vm_compute; reflexivity|].
  split; [reflexivity|].
  vm_compute. repeat split; intros; discriminate.
Qed.

(** C6, as stated, fails: the event the wheel listener hands back has its
    propagation stopped and its default action still pending. *)
Lemma on_wheel_leaves_default :
  exists (e' : Event) (w' : World SimpleCanvas),
    on_wheel (pointer 160 90 (- (300))) demo_world = Some (e', w')
    /\ propagationStopped e' = true
    /\ defaultPrevented e' = false.
Proof.
  eexists. eexists. split; [vm_compute; reflexivity|]. split; reflexivity.
Qed.

Lemma mirror_matches_registry_witness :
  exists w : World SimpleCanvas,
    exec (run [ElementAdded activity drawn; ElementAdded flow drawn;
               ElementRemoved activity; Wheel (pointer 160 90 (- (300)));
               ElementsChanged [activity; flow]]) demo_world = Some w
    /\ (list_to_set (mirror_ids w) : gset string) = registry_ids w
    /\ NoDup (mirror_ids w).
Proof.
  apply (mirror_matches_registry demo_canvas demo_layout); vm_compute; reflexivity.
Defined.

(** C7, as stated, fails: after an element is added and then removed, the
    registry is empty and the clone is still in the elements layer. *)
Lemma removal_leaves_orphan :
  exists w : World SimpleCanvas,
    exec (run [ElementAdded activity drawn; ElementRemoved activity]) demo_world = Some w
    /\ mirror_ids w = ["Activity_1"%string]
    /\ registry_ids w = ∅
    /\ (list_to_set (mirror_ids w) : gset string) <> registry_ids w.
Proof.
  assert (Hne : forall w : World SimpleCanvas,
             mirror_ids w = ["Activity_1"%string] -> registry_ids w = ∅ ->
             (list_to_set (mirror_ids w) : gset string) <> registry_ids w).
  { intros w -> -> H.
    assert (Hin : "Activity_1"%string ∈ (∅ : gset string)).
    { rewrite <- H. apply elem_of_list_to_set. apply list_elem_of_here. }
    exact (not_elem_of_empty _ Hin). }
  eexists. split; [vm_compute; reflexivity|].
  split; [reflexivity|]. split; [reflexivity|].
  apply Hne; reflexivity.
Qed.

Lemma drag_state_lifecycle_witness :
  exists w : World SimpleCanvas,
    exec (run [MouseDown (pointer 10 10 0); MouseMove (pointer 100 50 0);
               MouseUp (pointer 100 50 0)]) demo_world = Some w
    /\ drag_consistent (_state w).
Proof.
  destruct (drag_state_lifecycle demo_canvas ∅ demo_layout) as (_ & Hrun & _).
  apply Hrun. reflexivity.
Defined.

(** ** Further evaluations *)

Example MINIMAP_POSITION_reads :
  getPositions MINIMAP_POSITION = {| horizontal := "right"; vertical := "top" |}.
Proof. reflexivity. Qed.

Lemma map_empty_range_witness :
  is_finite (map (Fin 80) (Fin 5) (Fin 5) (Fin (-10)) (Fin 90)) = false.
Proof.
  apply (map_empty_range 80 5 5 (-10) 90). reflexivity.
Defined.

Lemma fitAspectRatio_empty_box_witness :
  fitAspectRatio 1%positive (Fin (16 # 9)) empty_box_world
  = Some (1%positive, empty_box_world).
Proof.
  apply (fitAspectRatio_empty_box empty_box_world 1%positive empty_box
           (Fin (16 # 9)) 0 0); reflexivity.
Defined.

Lemma removeElement_idempotent_witness :
  exists w1 : World SimpleCanvas,
    removeElement activity mirrored_world = Some (tt, w1)
    /\ removeElement activity w1 = Some (tt, w1)
    /\ el_id activity ∉ mirror_ids w1.
Proof.
  apply (removeElement_idempotent mirrored_world activity); compute_done.
Defined.

Lemma addElement_removeElement_witness :
  exists (clone : MirrorNode) (w1 : World SimpleCanvas),
    addElement activity (getDjsVisual drawn) demo_world = Some (clone, w1)
    /\ _elementsGroup w1 = _elementsGroup demo_world ++ [clone]
    /\ removeElement activity w1 = Some (tt, demo_world).
Proof.
  apply (addElement_removeElement demo_world activity); compute_done.
Defined.

Lemma on_elements_changed_exact_witness :
  exists w' : World SimpleCanvas,
    on_elements_changed [moved_activity] mirrored_world = Some (tt, w')
    /\ _elementsGroup w'
       = filter (fun n => mirror_id n ∉ el_id <$> [moved_activity])
           (_elementsGroup mirrored_world)
         ++ omap (clone_of (_elementRegistry mirrored_world)) [moved_activity]
    /\ _elementRegistry w' = _elementRegistry mirrored_world.
Proof.
  apply (on_elements_changed_exact mirrored_world [moved_activity]);
    compute_done.
Defined.

(** The moved activity: its old clone is gone, the connection's clone is
    kept, and the new clone sits at (30, 40). *)
Example moved_activity_is_redrawn :
  exists w' : World SimpleCanvas,
    on_elements_changed [moved_activity] mirrored_world = Some (tt, w')
    /\ _elementsGroup w'
       = [ flow_clone;
           {| mirror_id := "Activity_1";
              mirror_transform := Some (Fin 30, Fin 40);
              mirror_visual := mirror_visual activity_clone |} ].
Proof. eexists. split; [vm_compute; reflexivity | reflexivity]. Qed.

Lemma registered_are_mirrored_witness :
  exists w : World SimpleCanvas,
    exec (run [ElementAdded activity drawn; ElementAdded flow drawn;
               ElementRemoved activity]) demo_world = Some w
    /\ registry_ids w = {[ "Flow_1"%string ]}
    /\ registry_ids w ⊆ list_to_set (mirror_ids w)
    /\ (list_to_set (mirror_ids w) : gset string) ∖ registry_ids w
       = {[ "Activity_1"%string ]}
    /\ NoDup (mirror_ids w).
Proof.
  apply (registered_are_mirrored demo_canvas demo_layout).
  vm_compute. reflexivity.
Defined.

Lemma pointers_keep_layer_witness :
  exists w' : World SimpleCanvas,
    exec (run [MouseDown (pointer 10 10 0); MouseMove (pointer 100 50 0);
               Wheel (pointer 160 90 (- (300))); MouseUp (pointer 100 50 0);
               Click (pointer 20 20 0)]) mirrored_world = Some w'
    /\ _elementsGroup w' = _elementsGroup mirrored_world
    /\ _elementRegistry w' = _elementRegistry mirrored_world.
Proof.
  apply pointers_keep_layer. reflexivity.
Defined.

Lemma notifications_request_nothing_witness :
  exists w' : World SimpleCanvas,
    exec (run [ElementAdded activity drawn; ElementsChanged [moved_activity];
               ElementRemoved activity; ViewboxChanged]) dragging_world = Some w'
    /\ requests w' = requests dragging_world
    /\ _canvas w' = _canvas dragging_world
    /\ _state w' = _state dragging_world.
Proof.
  assert (Hrun : exists w' : World SimpleCanvas,
             exec (run [ElementAdded activity drawn; ElementsChanged [moved_activity];
                        ElementRemoved activity; ViewboxChanged]) dragging_world
             = Some w')
    by (eexists; vm_compute; reflexivity).
  destruct Hrun as [w' Hrun]. exists w'. split; [exact Hrun|].
  apply (notifications_request_nothing
           [ElementAdded activity drawn; ElementsChanged [moved_activity];
            ElementRemoved activity; ViewboxChanged] dragging_world w');
    [reflexivity | exact Hrun].
Defined.

(** A copied node that carries the id of a later element is found in its
    place: the bulk change that lists the removed flow takes the node out
    of the activity's clone and leaves the flow's clone in the layer. *)
Example copied_id_shadows_clone :
  exists w : World SimpleCanvas,
    exec (run [ElementAdded activity tagged; ElementAdded flow drawn;
               ElementRemoved flow; ElementsChanged [flow]]) demo_world = Some w
    /\ mirror_ids w = ["Activity_1"%string; "Flow_1"%string]
    /\ registry_ids w = {[ "Activity_1"%string ]}
    /\ inner_ids (_elementsGroup w) = ["label"%string]
    /\ announced ∅ ∅ ∅ [ElementAdded activity tagged; ElementAdded flow drawn;
                        ElementRemoved flow; ElementsChanged [flow]] = false.
Proof.
  eexists. split; [vm_compute; reflexivity|].
  repeat split; vm_compute; reflexivity.
Qed.

Lemma moves_outside_drag_witness :
  run (MouseMove <$> [pointer 10 10 0; pointer 100 50 0]) mirrored_world
  = Some (tt, mirrored_world).
Proof.
  apply moves_outside_drag. reflexivity.
Defined.

Lemma getPositions_reads_witness :
  getPositions "left-bottom" = {| horizontal := "left"; vertical := "bottom" |}.
Proof.
  apply (getPositions_reads "left" "bottom"); try discriminate;
    intros c Hc; cbn in Hc; intuition (subst; discriminate).
Defined.

(** ** Evaluations in double precision *)

#[local] Set Warnings "-inexact-float".

Local Open Scope float_scope.

Lemma map_lower_range_witness :
  ((0 <=? 3) = true -> (-2 <=? Binary64.map 3 0 3 (-2) (-1.2)) = true)
  /\ (Binary64.map 0 0 3 (-2) (-1.2) =? -2) = true.
Proof.
  apply (map_lower_range 3 0 3 (-2) (-1.2)); reflexivity.
Defined.

(** C9, as stated, fails: with the input range [0, 3] and the output
    range [-2, -1.2], both increasing, the upper end [3] is sent to
    [-1.1999999999999997], which is above [outMax] and is not [outMax];
    with the ranges [0, 320] and [0.6, 16.1], [320] is sent to
    [16.100000000000005]. *)
Lemma map_exceeds_range :
  (0 <=? 3) = true /\ (3 <=? 3) = true
  /\ (0 <? 3) = true /\ (-2 <? -1.2) = true
  /\ (-1.2 <? Binary64.map 3 0 3 (-2) (-1.2)) = true
  /\ (Binary64.map 3 0 3 (-2) (-1.2) =? -1.2) = false
  /\ (Binary64.map 320 0 320 0.6 16.1 =? 16.1) = false.
Proof. vm_compute. repeat split. Qed.

(** The lower end needs ranges whose differences do not overflow: when
    [outMax - outMin] is infinite the lower endpoint is sent to NaN, and
    so is the upper end of an input range whose difference is infinite. *)
Example map_overflowing_range :
  (-1e308 <? 1e308) = true
  /\ PrimFloat.is_finite (1e308 - -1e308) = false
  /\ PrimFloat.is_nan (Binary64.map 0 0 1 (-1e308) 1e308) = true
  /\ (-1e308 <=? Binary64.map 0 0 1 (-1e308) 1e308) = false
  /\ PrimFloat.is_nan (Binary64.map 1e308 (-1e308) 1e308 0 1) = true
  /\ (0 <=? Binary64.map 1e308 (-1e308) 1e308 0 1) = false.
Proof. vm_compute. repeat split. Qed.



End Minimap.
